(** * Qxam: memory monitor, chunker, streaming pipeline and exam builder

    A shallow embedding of [src/memory_optimizer.py], [src/pdf_processor.py]
    and [src/question_generator.py], and of the loop of [main.py] that
    collects the questions, followed by the properties of the specification
    that concern them and by further properties of the code.

    Conventions of the embedding.
    - A Python [str] is a list of code points; the model keeps the code
      points below 256, one [ascii] each, which is the range the cleaning
      regular expression of [_clean_text] speaks about.
    - A Python [int] is a [Z]; [//] is [Z.div] (both round towards minus
      infinity).  Quantities that Python computes with [/] or that psutil
      reports as a percentage are rationals ([Q]), compared exactly.
    - An operation that may raise, or whose loop may run for ever, returns an
      [outcome]; loops that Python writes with [while] take fuel.
    - [random.sample] and [random.shuffle] draw from an explicit source of
      numbers that is threaded through the calls.
    - The decorator [monitor_memory_usage] reads the memory before and after
      a call and may reclaim memory once the call has returned; for a
      generator that is before its first record.
      [MemoryOptimizer.monitor_memory_usage] is the wrapper.  The functions
      that read a file, and the question generator of
      [QuestionGenerator.Monitored], are given with it and with every read
      of the memory they make; the chunker, the streaming loop and the exam
      builder are given as the bodies that the wrapper calls. *)

From Stdlib Require Import ZArith QArith List String Ascii Bool Lia Arith.
From Stdlib Require Import Permutation.
From Stdlib Require Import Floats.
From Stdlib Require Uint63.
Import ListNotations.

Set Implicit Arguments.
Close Scope Q_scope.
Open Scope Z_scope.

(* ================================================================== *)
(** ** Python strings *)

Module PyStr.

Definition str := list ascii.

Definition lit (s : string) : str := list_ascii_of_string s.

Definition ord (c : ascii) : nat := nat_of_ascii c.
Definition chr (n : nat) : ascii := ascii_of_nat n.

Definition in_range (lo hi : nat) (c : ascii) : bool :=
  (lo <=? ord c)%nat && (ord c <=? hi)%nat.

(** [str.isspace] and the class [\s] of [re], on code points below 256:
    TAB..CR, FS..US, space, NEL and the no-break space. *)
Definition isspace (c : ascii) : bool :=
  in_range 9 13 c || in_range 28 32 c || (ord c =? 133)%nat || (ord c =? 160)%nat.

(** [c.isupper()] for one character. *)
Definition char_isupper (c : ascii) : bool :=
  in_range 65 90 c || in_range 192 214 c || in_range 216 222 c.

Definition char_lower (c : ascii) : ascii :=
  if char_isupper c then chr (ord c + 32) else c.

Definition lower (s : str) : str := map char_lower s.

(** [len(x)] of a string or of a list. *)
Definition len {A : Type} (l : list A) : Z := Z.of_nat (List.length l).

Fixpoint str_eqb (a b : str) : bool :=
  match a, b with
  | [], [] => true
  | c :: a', d :: b' => Ascii.eqb c d && str_eqb a' b'
  | _, _ => false
  end.

(** [x in l] for a list or a set of strings. *)
Definition mem (x : str) (l : list str) : bool := existsb (str_eqb x) l.

(** [c in s] for a character. *)
Definition has_char (c : ascii) (s : str) : bool := existsb (Ascii.eqb c) s.

Fixpoint startswith (s prefix : str) : bool :=
  match prefix, s with
  | [], _ => true
  | p :: prefix', c :: s' => Ascii.eqb p c && startswith s' prefix'
  | _ :: _, [] => false
  end.

Fixpoint lstrip (s : str) : str :=
  match s with
  | [] => []
  | c :: s' => if isspace c then lstrip s' else s
  end.

Definition rstrip (s : str) : str := rev (lstrip (rev s)).

Definition strip (s : str) : str := rstrip (lstrip s).

(** [sep.join(l)] *)
Fixpoint join (sep : str) (l : list str) : str :=
  match l with
  | [] => []
  | x :: rest =>
      match rest with
      | [] => x
      | _ :: _ => x ++ sep ++ join sep rest
      end
  end.

(** [s.split(c)] for a one-character separator: always at least one piece. *)
Fixpoint split_char (sep : ascii) (s : str) : list str :=
  match s with
  | [] => [[]]
  | c :: s' =>
      if Ascii.eqb c sep then [] :: split_char sep s'
      else match split_char sep s' with
           | p :: ps => (c :: p) :: ps
           | [] => [[c]]
           end
  end.

(** [s.split()]: the maximal runs of non-space characters. *)
Fixpoint split_ws (s : str) : list str :=
  match s with
  | [] => []
  | c :: s' =>
      if isspace c then split_ws s'
      else match s' with
           | [] => [[c]]
           | d :: _ =>
               if isspace d then [c] :: split_ws s'
               else match split_ws s' with
                    | p :: ps => (c :: p) :: ps
                    | [] => [[c]]
                    end
           end
  end.

(** [re.sub(r'\s+', ' ', s)]: the last character of each run of spaces is
    turned into one blank, the others disappear. *)
Fixpoint collapse_ws (s : str) : str :=
  match s with
  | [] => []
  | c :: s' =>
      if isspace c then
        match s' with
        | [] => [" "%char]
        | d :: _ => if isspace d then collapse_ws s' else " "%char :: collapse_ws s'
        end
      else c :: collapse_ws s'
  end.

(** [re.split(r'(?<=[.!?])\s+', s)].  A separator is a maximal run of spaces
    that starts right after one of [.], [!], [?]; [cur] is the piece being
    read, in reverse. *)
Inductive scan := Plain | AfterPunct | InGap.

Definition is_sentence_end (c : ascii) : bool :=
  Ascii.eqb c "."%char || Ascii.eqb c "!"%char || Ascii.eqb c "?"%char.

Definition scan_after (c : ascii) : scan :=
  if is_sentence_end c then AfterPunct else Plain.

Fixpoint split_sentences_from (mode : scan) (cur : str) (s : str) : list str :=
  match s with
  | [] => [rev cur]
  | c :: s' =>
      match mode with
      | InGap =>
          if isspace c then split_sentences_from InGap cur s'
          else split_sentences_from (scan_after c) (c :: cur) s'
      | AfterPunct =>
          if isspace c then rev cur :: split_sentences_from InGap [] s'
          else split_sentences_from (scan_after c) (c :: cur) s'
      | Plain => split_sentences_from (scan_after c) (c :: cur) s'
      end
  end.

Definition split_sentences (s : str) : list str :=
  split_sentences_from Plain [] s.

(** Not a space, or the blank itself. *)
Definition blank_or_visible (c : ascii) : bool :=
  negb (isspace c) || Ascii.eqb c " "%char.


(** A word: at least one character, none of them a space. *)
Definition is_word (w : str) : bool :=
  match w with
  | [] => false
  | _ :: _ => forallb (fun c => negb (isspace c)) w
  end.

(** Empty, or beginning with a character that is not a space. *)
Definition starts_visible (s : str) : bool :=
  match s with
  | [] => true
  | c :: _ => negb (isspace c)
  end.

(** The code points of [c.upper()] for a character below 256: the small
    letters move down by 32, the micro sign and y with diaeresis leave the
    range, the sharp s becomes two letters. *)
Definition upper_code (c : ascii) : list nat :=
  if in_range 97 122 c || in_range 224 246 c || in_range 248 254 c
  then [(ord c - 32)%nat]
  else if (ord c =? 181)%nat then [924%nat]
  else if (ord c =? 223)%nat then [83%nat; 83%nat]
  else if (ord c =? 255)%nat then [376%nat]
  else [ord c].

(** [s.upper()], as code points. *)
Definition upper (s : str) : list nat := flat_map upper_code s.

End PyStr.

Import PyStr.

(* ================================================================== *)
(** ** Results of calls that may raise or not return *)

Inductive exn :=
| PsutilError
| RuntimeError (msg : string)
| ValueError (msg : string).

Inductive outcome (A : Type) :=
| Ok (a : A)
| Raise (e : exn)
| OutOfFuel.

Arguments Ok {A} a.
Arguments Raise {A} e.
Arguments OutOfFuel {A}.

Definition bind {A B : Type} (m : outcome A) (k : A -> outcome B) : outcome B :=
  match m with
  | Ok a => k a
  | Raise e => Raise e
  | OutOfFuel => OutOfFuel
  end.

Notation "x <- m ;; k" := (bind m (fun x => k))
  (at level 61, m at next level, right associativity).
Notation "' pat <- m ;; k" := (bind m (fun x => match x with pat => k end))
  (at level 61, pat pattern, m at next level, right associativity).

(* ================================================================== *)
(** ** memory_optimizer.py *)

Module MemoryOptimizer.

(** What psutil answers.  Each of the three reads of [get_memory_usage] may
    raise. *)
Record svmem := { percent : Q; available : Z; total : Z }.

Record psutil := {
  Process : outcome unit;
  virtual_memory : outcome svmem;
  memory_info_rss : outcome Z
}.

Record MemoryInfo := {
  process_memory_mb : Q;
  system_memory_percent : Q;
  system_available_mb : Q;
  system_total_mb : Q
}.

(** The snapshot with zeroed fields that the specification describes as
    the fallback of a failed read.  The source builds no such value; it
    serves to say what a failed read does not return. *)
Definition zeroed : MemoryInfo :=
  {| process_memory_mb := 0; system_memory_percent := 0;
     system_available_mb := 0; system_total_mb := 0 |}.

Definition get_memory_usage (os : psutil) : outcome MemoryInfo :=
  _ <- Process os ;;
  system_memory <- virtual_memory os ;;
  rss <- memory_info_rss os ;;
  Ok {| process_memory_mb := inject_Z rss / 1024 / 1024;
        system_memory_percent := percent system_memory;
        system_available_mb := inject_Z (available system_memory) / 1024 / 1024;
        system_total_mb := inject_Z (total system_memory) / 1024 / 1024 |}.

(** [a > b] on rationals. *)
Definition Qgtb (a b : Q) : bool := negb (Qle_bool a b).

Definition get_optimal_chunk_size (os : psutil) (document_length : Z)
    (base_chunk_size : Z) : outcome Z :=
  memory_info <- get_memory_usage os ;;
  if Qgtb (system_memory_percent memory_info) 80 then
    Ok (base_chunk_size / 2)
  else if Qgtb (system_memory_percent memory_info) 90 then
    Ok (base_chunk_size / 4)
  else
    Ok base_chunk_size.

(** A machine whose reads succeed and whose memory is used at [p] percent. *)
Definition healthy (p : Q) : psutil :=
  {| Process := Ok tt;
     virtual_memory := Ok {| percent := p; available := 2147483648; total := 4294967296 |};
     memory_info_rss := Ok 104857600 |}.

(** A machine on which reading the system memory raises. *)
Definition unreadable : psutil :=
  {| Process := Ok tt;
     virtual_memory := Raise PsutilError;
     memory_info_rss := Ok 104857600 |}.

(** [a < b] on rationals. *)
Definition Qltb (a b : Q) : bool := negb (Qle_bool b a).

Definition get_optimal_batch_size (os : psutil) (base_batch_size : Z)
    : outcome Z :=
  memory_info <- get_memory_usage os ;;
  let available_memory_gb := (system_available_mb memory_info / 1024)%Q in
  if Qltb available_memory_gb 1 then Ok 1
  else if Qltb available_memory_gb 2 then Ok (Z.max 1 (base_batch_size / 2))
  else Ok base_batch_size.

(** [self.max_memory_gb * 1024 * 0.9] for the instance of the module, whose
    [max_memory_gb] is 3.5: the binary64 product, a little below 3225.6. *)
Definition limit_mb : Q := 7093169413108531 # 2199023255552.

Definition check_memory_limit (os : psutil) : outcome bool :=
  memory_info <- get_memory_usage os ;;
  if Qgtb (process_memory_mb memory_info) limit_mb then Ok false
  else if Qgtb (system_memory_percent memory_info) 90 then Ok false
  else Ok true.

(** What a cleanup reclaims: [gc.collect()] and
    [torch.cuda.empty_cache()]. *)
Inductive reclaim :=
| GcCollect
| EmptyCache.

(** [cuda] is what [torch.cuda.is_available()] answers.  The result lists
    what has been reclaimed by a call that returns. *)
Definition cleanup_memory (os : psutil) (cuda : bool) (force : bool)
    : outcome (list reclaim) :=
  run <- (if force then Ok true
          else ok <- check_memory_limit os ;; Ok (negb ok)) ;;
  if run then
    _ <- get_memory_usage os ;;
    Ok (GcCollect :: (if cuda then [EmptyCache] else []))
  else Ok [].

(** What [wrapper] does once [func] has returned. *)
Definition after_call (os : psutil) (cuda : bool) : outcome (list reclaim) :=
  _ <- get_memory_usage os ;;
  ok <- check_memory_limit os ;;
  if ok then Ok [] else cleanup_memory os cuda false.

(** [wrapper] of the decorator, around a call [func] that returns or raises
    one of [exn]. *)
Definition monitor_memory_usage {A : Type} (os : psutil) (cuda : bool)
    (func : outcome A) : outcome (A * list reclaim) :=
  _ <- get_memory_usage os ;;
  result <- func ;;
  reclaimed <- after_call os cuda ;;
  Ok (result, reclaimed).

End MemoryOptimizer.

(* ================================================================== *)
(** ** pdf_processor.py *)

Module PDFProcessor.

Import MemoryOptimizer.

Record PDFProcessor := { chunk_size : Z; overlap : Z }.

(** [PDFProcessor()] *)
Definition default : PDFProcessor := {| chunk_size := 512; overlap := 50 |}.

(** The class [[\x00-\x08\x0b\x0c\x0e-\x1f\x7f-\xff]]. *)
Definition is_control (c : ascii) : bool :=
  in_range 0 8 c || (ord c =? 11)%nat || (ord c =? 12)%nat
  || in_range 14 31 c || in_range 127 255 c.

Definition newline : ascii := "010"%char.

Definition _clean_text (text : str) : str :=
  let text := filter (fun c => negb (is_control c)) text in
  let text := collapse_ws text in
  let lines := split_char newline text in
  let filtered_lines :=
    flat_map (fun line =>
                let line := strip line in
                if 10 <? len line then [line] else []) lines in
  join [newline] filtered_lines.

(** [l[start:stop]], with Python's reading of negative and large indices. *)
Definition slice_index (n i : Z) : Z :=
  if i <? 0 then Z.max 0 (i + n) else Z.min i n.

Definition slice {A : Type} (l : list A) (start stop : Z) : list A :=
  let a := slice_index (len l) start in
  let b := slice_index (len l) stop in
  firstn (Z.to_nat (b - a)) (skipn (Z.to_nat a) l).

(** One turn of the [while] loop of [create_text_chunks]: the window
    [words[start_idx:end_idx]] and the text it yields, if any. *)
Record Window := {
  start_idx : Z;
  end_idx : Z;
  yielded : option str
}.

Fixpoint chunk_loop (fuel : nat) (words : list str) (optimal_chunk_size overlap : Z)
    (start : Z) : outcome (list Window) :=
  match fuel with
  | O => OutOfFuel
  | S fuel' =>
      let total_words := len words in
      if start <? total_words then
        let end_ := Z.min (start + optimal_chunk_size) total_words in
        let chunk_words := slice words start end_ in
        let chunk_text := join [" "%char] chunk_words in
        let w := {| start_idx := start; end_idx := end_;
                    yielded := if 50 <? len (strip chunk_text)
                               then Some chunk_text else None |} in
        if total_words <=? end_ then Ok [w]
        else
          rest <- chunk_loop fuel' words optimal_chunk_size overlap (end_ - overlap) ;;
          Ok (w :: rest)
      else Ok []
  end.

(** The windows the loop goes through on [text]. *)
Definition chunk_windows (fuel : nat) (os : psutil) (self : PDFProcessor)
    (text : str) : outcome (list Window) :=
  optimal_chunk_size <- get_optimal_chunk_size os (len text) (chunk_size self) ;;
  chunk_loop fuel (split_ws text) optimal_chunk_size (overlap self) 0.

Definition yields (ws : list Window) : list str :=
  flat_map (fun w => match yielded w with Some t => [t] | None => [] end) ws.

(** The sequence that the generator [create_text_chunks] yields. *)
Definition create_text_chunks (fuel : nat) (os : psutil) (self : PDFProcessor)
    (text : str) : outcome (list str) :=
  ws <- chunk_windows fuel os self text ;;
  Ok (yields ws).

(** The windows of the chunks that are yielded. *)
Definition yielded_windows (ws : list Window) : list Window :=
  filter (fun w => match yielded w with Some _ => true | None => false end) ws.

Definition Metadata := list (str * str).

Record ChunkRecord := {
  chunk_id : Z;
  text : str;
  metadata : Metadata;
  chunk_length : Z
}.

(** What a consumer that pulls every record of [process_pdf_streaming]
    observes of its loop: the records, and the calls of
    [memory_optimizer.cleanup_memory] with the value of [force]. *)
Inductive event :=
| Yield (r : ChunkRecord)
| CleanupMemory (force : bool).

Fixpoint stream_loop (md : Metadata) (i : Z) (chunks : list str) : list event :=
  match chunks with
  | [] => []
  | chunk :: rest =>
      Yield {| chunk_id := i; text := chunk; metadata := md;
               chunk_length := len chunk |}
      :: (if i mod 5 =? 0 then [CleanupMemory false] else [])
      ++ stream_loop md (i + 1) rest
  end.

(** [get_pdf_metadata] and [extract_text_from_pdf] read the file through
    PyMuPDF; the model takes what they return. *)
Definition process_pdf_streaming (fuel : nat) (os : psutil) (self : PDFProcessor)
    (md : Metadata) (extracted : outcome str) : outcome (list event) :=
  full_text <- extracted ;;
  chunks <- create_text_chunks fuel os self full_text ;;
  Ok (stream_loop md 0 chunks).

(** Reading the windows: the number of word positions two windows share,
    a relation that holds between each window and the next, and the cover
    of the word positions [0 .. total_words - 1]. *)
Definition overlap_size (w1 w2 : Window) : Z :=
  Z.max 0 (Z.min (end_idx w1) (end_idx w2) - Z.max (start_idx w1) (start_idx w2)).

Fixpoint adjacent {A : Type} (R : A -> A -> Prop) (l : list A) : Prop :=
  match l with
  | [] => True
  | a :: l' =>
      match l' with
      | [] => True
      | b :: _ => R a b /\ adjacent R l'
      end
  end.

Definition chained (overlap : Z) (ws : list Window) : Prop :=
  adjacent (fun w1 w2 => start_idx w2 = end_idx w1 - overlap
                         /\ overlap_size w1 w2 = overlap) ws.

Definition covered (total_words : Z) (ws : list Window) : Prop :=
  forall i, 0 <= i < total_words ->
            exists w, In w ws /\ start_idx w <= i < end_idx w.

(** A window lies within the words, is not empty, is as long as the window
    size allows, and yields the text of its words when that text has more
    than 50 characters. *)
Definition window_ok (words : list str) (optimal_chunk_size : Z) (w : Window)
    : Prop :=
  0 <= start_idx w < end_idx w /\ end_idx w <= len words
  /\ end_idx w = Z.min (start_idx w + optimal_chunk_size) (len words)
  /\ yielded w
     = let chunk_text :=
         join [" "%char] (slice words (start_idx w) (end_idx w)) in
       if 50 <? len (strip chunk_text) then Some chunk_text else None.

Definition span (w : Window) : Z * Z := (start_idx w, end_idx w).

(** A text of ten words: four long ones, three of one letter, three long
    ones. *)
Definition uneven_text : str :=
  join [" "%char]
    (repeat (lit "abcdefghijklmnopqrst") 4 ++ [lit "a"; lit "b"; lit "c"]
     ++ repeat (lit "abcdefghijklmnopqrst") 3).

(** Reading a trace: what comes after the [k]-th record (counted from 1),
    whether that is a call of [cleanup_memory(force=False)], and the calls
    of [cleanup_memory] in the whole trace. *)
Fixpoint after_record (k : nat) (tr : list event) : option (list event) :=
  match tr with
  | [] => None
  | Yield _ :: tr' =>
      match k with
      | O => None
      | S O => Some tr'
      | S k' => after_record k' tr'
      end
  | CleanupMemory _ :: tr' => after_record k tr'
  end.

Definition reclaims_after (k : nat) (tr : list event) : bool :=
  match after_record k tr with
  | Some (CleanupMemory false :: _) => true
  | _ => false
  end.

Definition records (tr : list event) : list ChunkRecord :=
  flat_map (fun e => match e with Yield r => [r] | CleanupMemory _ => [] end) tr.

Definition cleanups (tr : list event) : list bool :=
  flat_map (fun e => match e with Yield _ => [] | CleanupMemory f => [f] end) tr.

(** A text of [n] words. *)
Definition words_text (n : nat) : str :=
  join [" "%char] (repeat (lit "palabra") n).

(** [chunk] is made of between 1 and [size] consecutive words, one blank
    apart. *)
Definition run_of_words (words : list str) (size : Z) (chunk : str) : Prop :=
  exists i n : nat,
    (1 <= n)%nat /\ Z.of_nat n <= size
    /\ chunk = join [" "%char] (firstn n (skipn i words)).

(** *** Reading a file *)

(** What the file system and PyMuPDF answer for a path: whether it exists,
    its suffix and size, and the document that [fitz.open] gives ([None]:
    it raises), with its metadata and the text of its pages. *)
Record Document := {
  doc_metadata : list (str * str);
  pages : list str
}.

Record PdfFile := {
  file_exists : bool;
  suffix : str;
  st_size : Z;
  opened : option Document
}.

Inductive io_error :=
| FileNotFoundError
| FitzError
| EOFError.

Definition fitz_open (f : PdfFile) : io_error + Document :=
  if file_exists f then
    match opened f with
    | Some doc => inr doc
    | None => inl FitzError
    end
  else inl FileNotFoundError.

(** [for page_num, page in enumerate(doc, 1): ...]; [cleanups] lists the
    pages after which [cleanup_memory()] is called.  The call reads the
    memory, and with it may raise. *)
Fixpoint page_loop (os : psutil) (cuda : bool) (page_num : Z) (pages : list str)
    (text_content : list str) (cleanups : list Z)
    : outcome (list str * list Z) :=
  match pages with
  | [] => Ok (text_content, cleanups)
  | page_text :: rest =>
      let text_content :=
        match strip page_text with
        | [] => text_content
        | _ :: _ => text_content ++ [_clean_text page_text]
        end in
      if page_num mod 10 =? 0 then
        _ <- cleanup_memory os cuda false ;;
        page_loop os cuda (page_num + 1) rest text_content (cleanups ++ [page_num])
      else
        page_loop os cuda (page_num + 1) rest text_content cleanups
  end.

(** The function that the decorator wraps.  [Ok (inl e)]: it raises the
    error [e] of the file; [Raise e]: a read of the memory raised [e], which
    the handler logs and raises again.  With the text come the pages after
    which [cleanup_memory()] has been called. *)
Definition extract_text_from_pdf_body (os : psutil) (cuda : bool) (f : PdfFile)
    : outcome (io_error + (str * list Z)) :=
  if negb (file_exists f) then Ok (inl FileNotFoundError)
  else
    match fitz_open f with
    | inl e => Ok (inl e)
    | inr doc =>
        ' (text_content, cleanups) <- page_loop os cuda 1 (pages doc) [] [] ;;
        Ok (inr (join [newline; newline] text_content, cleanups))
    end.

(** The decorated function: the wrapper reads the memory, calls the body,
    and once the body has returned reads the memory again and reclaims if
    the limit is passed.  An error that the body raises leaves the wrapper
    at once. *)
Definition extract_text_from_pdf (os : psutil) (cuda : bool) (f : PdfFile)
    : outcome (io_error + (str * list Z)) :=
  _ <- get_memory_usage os ;;
  result <- extract_text_from_pdf_body os cuda f ;;
  match result with
  | inl e => Ok (inl e)
  | inr extracted =>
      _ <- after_call os cuda ;;
      Ok (inr extracted)
  end.

Definition get_full_text (os : psutil) (cuda : bool) (f : PdfFile)
    : outcome (io_error + (str * list Z)) :=
  extract_text_from_pdf os cuda f.

(** The values of the dictionary that [get_pdf_metadata] returns. *)
Inductive value :=
| VStr (s : str)
| VInt (n : Z)
| VFloat (q : Q).

(** [d.get(key, default)] *)
Fixpoint dict_get (d : list (str * str)) (key default : str) : str :=
  match d with
  | [] => default
  | (k, v) :: d' => if str_eqb k key then v else dict_get d' key default
  end.

Definition get_pdf_metadata (f : PdfFile) : list (str * value) :=
  match fitz_open f with
  | inl _ => []
  | inr doc =>
      let metadata := doc_metadata doc in
      [ (lit "title",
         VStr (dict_get metadata (lit "title")
                 (lit "Sin t" ++ [chr 237] ++ lit "tulo")));
        (lit "author", VStr (dict_get metadata (lit "author") (lit "Autor desconocido")));
        (lit "subject", VStr (dict_get metadata (lit "subject") []));
        (lit "pages", VInt (len (pages doc)));
        (lit "file_size_mb", VFloat (inject_Z (st_size f) / inject_Z (1024 * 1024))) ]
  end.

Definition validate_pdf (f : PdfFile) : bool :=
  if negb (file_exists f) then false
  else if negb (str_eqb (lower (suffix f)) (lit ".pdf")) then false
  else
    match fitz_open f with
    | inl _ => false
    | inr doc =>
        match pages doc with
        | [] => false
        | _ :: _ => true
        end
    end.

End PDFProcessor.

(* ================================================================== *)
(** ** The [random] module *)

Module Random.

(** The numbers still to be drawn. *)
Definition source := list nat.

Definition draw (r : source) (bound : nat) : nat * source :=
  match r with
  | [] => (O, [])
  | x :: r' => ((x mod bound)%nat, r')
  end.

Fixpoint remove_at {A : Type} (i : nat) (l : list A) : list A :=
  match l, i with
  | [], _ => []
  | _ :: l', O => l'
  | x :: l', S i' => x :: remove_at i' l'
  end.

(** [k] elements at distinct positions of [pool], in the order drawn. *)
Fixpoint pick {A : Type} (k : nat) (pool : list A) (r : source) : list A * source :=
  match k with
  | O => ([], r)
  | S k' =>
      let (i, r') := draw r (List.length pool) in
      match nth_error pool i with
      | None => ([], r')
      | Some x =>
          let (xs, r'') := pick k' (remove_at i pool) r' in
          (x :: xs, r'')
      end
  end.

(** [random.sample(population, k)] *)
Definition sample {A : Type} (population : list A) (k : Z) (r : source)
    : outcome (list A * source) :=
  if (k <? 0) || (len population <? k) then
    Raise (ValueError "Sample larger than population or is negative")
  else Ok (pick (Z.to_nat k) population r).

(** [random.shuffle(x)]: the elements of [x] in a drawn order. *)
Definition shuffle {A : Type} (x : list A) (r : source) : list A * source :=
  pick (List.length x) x r.

End Random.

(* ================================================================== *)
(** ** question_generator.py *)

Module QuestionGenerator.

Import MemoryOptimizer.

Record Question := { q_question : str; q_type : str; q_model : str }.

Record ExamItem := { question : str; options : list str; answer : str }.

Record Detail := {
  d_question : str;
  selected : str;
  correct_answer : str;
  is_correct : bool
}.

Record GradeReport := {
  score : Q;
  correct : Z;
  total : Z;
  details : list Detail
}.

(** *** grade_multiple_choice_exam *)

Fixpoint grade_loop (pairs : list (ExamItem * str)) (correct : Z)
    (details : list Detail) : Z * list Detail :=
  match pairs with
  | [] => (correct, details)
  | (q, user_ans) :: rest =>
      let is_correct := str_eqb user_ans (answer q) in
      let correct := if is_correct then correct + 1 else correct in
      grade_loop rest correct
        (details ++ [{| d_question := question q; selected := user_ans;
                        correct_answer := answer q; is_correct := is_correct |}])
  end.

Definition grade_multiple_choice_exam (exam : list ExamItem)
    (user_answers : list str) : GradeReport :=
  let (correct, details) := grade_loop (combine exam user_answers) 0 [] in
  let total := len exam in
  let score :=
    if 0 <? total then (inject_Z correct / inject_Z total * 100)%Q else 0%Q in
  {| score := score; correct := correct; total := total; details := details |}.

(** The [score] of a report is the value of [correct / total * 100] in
    exact arithmetic.  Python evaluates that expression in binary64, with
    one rounding for the division and one for the product, and stores the
    integer 0 for an empty exam: [python_score] is the number found under
    ['score']. *)
Inductive number :=
| Int (n : Z)
| Float (x : float).

(** [float(n)]; exact for the lengths of lists (below [2^53]). *)
Definition float_of_Z (n : Z) : float := PrimFloat.of_uint63 (Uint63.of_Z n).

Definition python_score (r : GradeReport) : number :=
  if 0 <? total r
  then Float (float_of_Z (correct r) / float_of_Z (total r) * 100)%float
  else Int 0.

(** The rational that a finite float stands for. *)
Definition float_to_Q (x : float) : option Q :=
  match Prim2SF x with
  | S754_zero _ => Some 0%Q
  | S754_finite s m e =>
      Some ((if s then -1 else 1) * inject_Z (Zpos m) * Qpower 2 e)%Q
  | _ => None
  end.

(** Three items, and three answers of which the first is right. *)
Definition three_items : list ExamItem :=
  [ {| question := lit "q1"; options := [lit "a"; lit "b"]; answer := lit "a" |};
    {| question := lit "q2"; options := [lit "c"; lit "d"]; answer := lit "d" |};
    {| question := lit "q3"; options := [lit "e"; lit "f"]; answer := lit "e" |} ].

Definition one_right : list str := [lit "a"; lit "c"; lit "f"].

(** What the loop of [grade_multiple_choice_exam] does with one pair. *)
Definition right_pair (p : ExamItem * str) : bool :=
  str_eqb (snd p) (answer (fst p)).

Definition detail_of (p : ExamItem * str) : Detail :=
  {| d_question := question (fst p); selected := snd p;
     correct_answer := answer (fst p); is_correct := right_pair p |}.

(** The number of positions of [exam] at which the user's answer is the
    recorded correct answer; a position without an answer does not count. *)
Definition answered_right (exam : list ExamItem) (user_answers : list str)
    (i : nat) : bool :=
  match nth_error exam i, nth_error user_answers i with
  | Some q, Some a => if list_eq_dec ascii_dec a (answer q) then true else false
  | _, _ => false
  end.

Definition count_right (exam : list ExamItem) (user_answers : list str) : nat :=
  List.length (filter (answered_right exam user_answers)
                      (seq 0 (List.length exam))).

(** *** generate_questions_from_text *)

(** The text-generation pipeline: the [generated_text] of the sequences it
    returns for a prompt, or [None] when the call raises. *)
Definition Pipeline := str -> option (list str).

(** [load_model] is given by what it would load ([None]: it returns
    [False]); loading twice finds the same pipeline. *)
Record QuestionGenerator := {
  model_name : str;
  pipeline : option Pipeline;
  load_model : option Pipeline
}.

Inductive lang := es | en.

Definition inverted_question : ascii := chr 191.
Definition inverted_exclamation : ascii := chr 161.

Definition first_isupper (s : str) : bool :=
  match s with
  | [] => false
  | c :: _ => char_isupper c
  end.

Definition nonempty (s : str) : bool :=
  match s with [] => false | _ :: _ => true end.

Definition valid_en (question : str) (used : list str) : bool :=
  nonempty question && negb (mem question used)
  && (10 <? len question) && (len question <? 200)
  && has_char "?"%char question
  && first_isupper question
  && negb (has_char inverted_question question
           || has_char inverted_exclamation question)
  && negb (startswith (lower question) (lit "context:"))
  && negb (startswith (lower question) (lit "answer:")).

Definition valid_es (question : str) (used : list str) : bool :=
  nonempty question && negb (mem question used)
  && (10 <? len question) && (len question <? 200)
  && (has_char inverted_question question || has_char "?"%char question)
  && negb (startswith (lower question) (lit "what"))
  && negb (startswith (lower question) (lit "who"))
  && negb (startswith (lower question) (lit "when"))
  && negb (startswith (lower question) (lit "where"))
  && negb (startswith (lower question) (lit "why"))
  && negb (startswith (lower question) (lit "how")).

(** [for r in result: ...] *)
Fixpoint accept (model : str) (l : lang) (result : list str)
    (questions : list Question) (used : list str) : list Question * list str :=
  match result with
  | [] => (questions, used)
  | r :: rest =>
      let question := strip r in
      if match l with en => valid_en question used | es => valid_es question used end
      then accept model l rest
             (questions ++ [{| q_question := question; q_type := lit "QG";
                               q_model := model |}])
             (question :: used)
      else accept model l rest questions used
  end.

(** [for sent in sentences: ...] *)
Fixpoint sentence_loop (model : str) (p : Pipeline) (num_questions : Z)
    (sentences : list str) (questions : list Question) (used : list str)
    : list Question :=
  match sentences with
  | [] => questions
  | sent :: rest =>
      let sent := strip sent in
      if len sent <? 30 then
        sentence_loop model p num_questions rest questions used
      else if num_questions <=? len questions then questions
      else
        let (prompt, l) :=
          if startswith model (lit "mrm8488")
          then (lit "contexto: " ++ sent ++ lit " respuesta: " ++ sent, es)
          else (lit "generate question: " ++ sent ++ lit " answer: " ++ sent, en) in
        match p prompt with
        | Some result =>
            let (questions', used') := accept model l result questions used in
            sentence_loop model p num_questions rest questions' used'
        | None => sentence_loop model p num_questions rest questions used
        end
  end.

Definition generate_questions_from_text (self : QuestionGenerator) (text : str)
    (num_questions : Z) : outcome (list Question) :=
  p <- match pipeline self with
       | Some p => Ok p
       | None =>
           match load_model self with
           | Some p => Ok p
           | None => Raise (RuntimeError "No se pudo cargar el modelo")
           end
       end ;;
  Ok (sentence_loop (model_name self) p num_questions (split_sentences text) [] []).

(** [load_model] and [generate_questions_from_text] as the module exports
    them, inside the wrapper of [monitor_memory_usage]. *)
Module Monitored.

Definition load_model (os : psutil) (cuda : bool) (self : QuestionGenerator)
    : outcome (option Pipeline) :=
  ' (loaded, _) <- monitor_memory_usage os cuda (Ok (load_model self)) ;;
  Ok loaded.

Definition generate_questions_from_text (os : psutil) (cuda : bool)
    (self : QuestionGenerator) (text : str) (num_questions : Z)
    : outcome (list Question) :=
  ' (questions, _) <-
    monitor_memory_usage os cuda
      (p <- match pipeline self with
            | Some p => Ok p
            | None =>
                loaded <- load_model os cuda self ;;
                match loaded with
                | Some p => Ok p
                | None => Raise (RuntimeError "No se pudo cargar el modelo")
                end
            end ;;
       Ok (sentence_loop (model_name self) p num_questions
             (split_sentences text) [] [])) ;;
  Ok questions.

End Monitored.

(** What every question handed back has in common. *)
Definition question_ok (model : str) (q : Question) : Prop :=
  10 < len (q_question q) < 200
  /\ has_char "?"%char (q_question q) || has_char inverted_question (q_question q) = true
  /\ q_type q = lit "QG"
  /\ q_model q = model.

(** What the loops keep true of the questions accepted so far and of the
    texts in [used]. *)
Definition accepted (model : str) (questions : list Question) (used : list str)
    : Prop :=
  NoDup (map q_question questions)
  /\ (forall q, In q questions -> In (q_question q) used)
  /\ Forall (question_ok model) questions.

(** *** generate_multiple_choice_exam *)

Section Exam.

(** [difflib.get_close_matches(word, possibilities, n=1)] *)
Variable get_close_matches : str -> list str -> list str.

Definition _extract_answer_from_question (question context : str) : str :=
  let sentences :=
    filter (fun s => 10 <? len s) (map strip (split_char "."%char context)) in
  match get_close_matches question sentences with
  | best :: _ => best
  | [] =>
      match sentences with
      | s :: _ => s
      | [] => lit "Respuesta no disponible"
      end
  end.

(** ["Opción incorrecta"] *)
Definition placeholder : str := lit "Opci" ++ [chr 243] ++ lit "n incorrecta".

Definition _generate_distractors (correct context : str) (n : Z)
    (r : Random.source) : outcome (list str * Random.source) :=
  let sentences :=
    filter (fun s => (10 <? len s) && negb (str_eqb s correct))
           (map strip (split_char "."%char context)) in
  match sentences with
  | [] => Ok (repeat placeholder (Z.to_nat n), r)
  | _ :: _ => Random.sample sentences (Z.min n (len sentences)) r
  end.

Record exam_state := {
  exam : list ExamItem;
  used_questions : list str;
  rnd : Random.source
}.

(** [for q in questions: ...] *)
Fixpoint item_loop (chunk_text : str) (num_questions num_options : Z)
    (questions : list Question) (st : exam_state) : outcome exam_state :=
  match questions with
  | [] => Ok st
  | q :: rest =>
      let question_text := q_question q in
      if mem question_text (used_questions st) then
        item_loop chunk_text num_questions num_options rest st
      else
        let correct_answer := _extract_answer_from_question question_text chunk_text in
        '(distractors, r1) <-
          _generate_distractors correct_answer chunk_text (num_options - 1) (rnd st) ;;
        let (options, r2) := Random.shuffle (distractors ++ [correct_answer]) r1 in
        let st' :=
          {| exam := exam st ++ [{| question := question_text; options := options;
                                    answer := correct_answer |}];
             used_questions := question_text :: used_questions st;
             rnd := r2 |} in
        if num_questions <=? len (exam st') then Ok st'
        else item_loop chunk_text num_questions num_options rest st'
  end.

(** [while len(exam) < num_questions and chunk_idx < len(chunks): ...] *)
Fixpoint chunk_idx_loop (self : QuestionGenerator) (num_questions num_options : Z)
    (chunks : list str) (st : exam_state) : outcome exam_state :=
  match chunks with
  | [] => Ok st
  | chunk_text :: rest =>
      if len (exam st) <? num_questions then
        questions <- generate_questions_from_text self chunk_text 1 ;;
        st' <- item_loop chunk_text num_questions num_options questions st ;;
        chunk_idx_loop self num_questions num_options rest st'
      else Ok st
  end.

Definition generate_multiple_choice_exam (fuel : nat) (os : psutil)
    (self : QuestionGenerator) (text : str) (num_questions num_options : Z)
    (r : Random.source) : outcome (list ExamItem) :=
  chunks <- PDFProcessor.create_text_chunks fuel os PDFProcessor.default text ;;
  st <- chunk_idx_loop self num_questions num_options chunks
          {| exam := []; used_questions := []; rnd := r |} ;;
  Ok (exam st).

(** The sentences among which [_generate_distractors] samples. *)
Definition distractor_sentences (correct context : str) : list str :=
  filter (fun s => (10 <? len s) && negb (str_eqb s correct))
         (map strip (split_char "."%char context)).

(** A generator for the default (Spanish) model whose pipeline answers every
    prompt with [answers]. *)
Definition spanish_model : str :=
  lit "mrm8488/t5-base-finetuned-question-generation-ap".

Definition answering (answers : list str) : QuestionGenerator :=
  {| model_name := spanish_model;
     pipeline := Some (fun _ => Some answers);
     load_model := Some (fun _ => Some answers) |}.

Definition three_answers : list str :=
  [ lit "Que convierte la fotosintesis?";
    lit "Que energia produce la fotosintesis?";
    lit "Que usa la fotosintesis?" ].

Definition one_sentence : str :=
  lit "La fotosintesis convierte la luz solar en energia quimica.".

Definition three_sentences : str :=
  lit "La fotosintesis convierte la luz solar en energia quimica. Las plantas absorben agua. El oxigeno se libera al aire.".

(** An item can be answered: its recorded answer is one of its options,
    and it has at least one and at most [num_options] options. *)
Definition item_ok (num_options : Z) (it : ExamItem) : Prop :=
  In (answer it) (options it) /\ 1 <= len (options it) <= num_options.

(** What the loops of the exam builder keep true of their state. *)
Definition exam_ok (num_options : Z) (st : exam_state) : Prop :=
  NoDup (map question (exam st))
  /\ (forall it, In it (exam st) -> In (question it) (used_questions st))
  /\ Forall (item_ok num_options) (exam st).

End Exam.

(** *** present_multiple_choice_exam *)

(** [while True: ...] for one question: the lines typed are read until one
    of them, trimmed and in capitals, is the letter of an option; reading
    past the last line raises. *)
Fixpoint ask (options : list str) (inputs : list str)
    : PDFProcessor.io_error + (str * list str) :=
  match inputs with
  | [] => inl PDFProcessor.EOFError
  | line :: rest =>
      match upper (strip line) with
      | [c] =>
          if (65 <=? c)%nat && (c <? 65 + List.length options)%nat
          then inr (nth (c - 65) options [], rest)
          else ask options rest
      | _ => ask options rest
      end
  end.

Fixpoint present_multiple_choice_exam (exam : list ExamItem) (inputs : list str)
    : PDFProcessor.io_error + list str :=
  match exam with
  | [] => inr []
  | q :: rest =>
      match ask (options q) inputs with
      | inl e => inl e
      | inr (a, inputs') =>
          match present_multiple_choice_exam rest inputs' with
          | inl e => inl e
          | inr user_answers => inr (a :: user_answers)
          end
      end
  end.

End QuestionGenerator.

(* ================================================================== *)
(** ** main.py *)

Module Main.

Import PDFProcessor QuestionGenerator.

(** The loop of [generate_questions_cli] over the records of
    [process_pdf_streaming], given by their texts. *)
Fixpoint collect_questions (question_generator : QuestionGenerator.QuestionGenerator)
    (num_questions : Z) (chunk_texts : list str) (all_questions : list Question)
    : outcome (list Question) :=
  match chunk_texts with
  | [] => Ok all_questions
  | chunk_text :: rest =>
      let questions_per_chunk := Z.min 3 (Z.max 1 (num_questions / 5)) in
      chunk_questions <-
        generate_questions_from_text question_generator chunk_text
          questions_per_chunk ;;
      let all_questions :=
        match chunk_questions with
        | [] => all_questions
        | _ :: _ => all_questions ++ chunk_questions
        end in
      if num_questions <=? len all_questions
      then Ok (slice all_questions 0 num_questions)
      else collect_questions question_generator num_questions rest all_questions
  end.

End Main.

(* ================================================================== *)
(** * Properties *)

Import MemoryOptimizer PDFProcessor QuestionGenerator.

(** ** Strings *)

Lemma str_eqb_eq (a b : str) : str_eqb a b = true <-> a = b.
Proof.
  revert b; induction a as [|c a IH]; intros [|d b]; simpl; split;
    try congruence; try reflexivity.
  - intros H. apply andb_true_iff in H as [Hc Ha].
    apply Ascii.eqb_eq in Hc. apply IH in Ha. congruence.
  - intros H. injection H as -> ->.
    apply andb_true_iff. split; [apply Ascii.eqb_refl | now apply IH].
Qed.

Lemma str_eqb_refl (a : str) : str_eqb a a = true.
Proof. now apply str_eqb_eq. Qed.

Lemma str_eqb_neq (a b : str) : str_eqb a b = false <-> a <> b.
Proof.
  split.
  - intros H E. apply str_eqb_eq in E. congruence.
  - intros H. destruct (str_eqb a b) eqn:E; [|reflexivity].
    apply str_eqb_eq in E. contradiction.
Qed.

(** ** Memory monitor *)

(** C1.  The code tests [> 80] before [> 90], so the quartering branch is
    never taken: on a machine used at [p] percent the recommended size is
    [base] when [p <= 80] and [base // 2] for every [p > 80].  With base 512
    it is 512 at 70%, 256 at 85% and again 256 (not 128) at 95%. *)
Theorem get_optimal_chunk_size_never_quarters :
  (forall (p : Q) (document_length base : Z),
      get_optimal_chunk_size (healthy p) document_length base
      = Ok (if Qle_bool p 80 then base else base / 2))
  /\ get_optimal_chunk_size (healthy (70 # 1)) 0 512 = Ok 512
  /\ get_optimal_chunk_size (healthy (85 # 1)) 0 512 = Ok 256
  /\ get_optimal_chunk_size (healthy (95 # 1)) 0 512 = Ok 256.
Proof.
  split; [|repeat split; reflexivity].
  intros p document_length base.
  unfold get_optimal_chunk_size, healthy, get_memory_usage, Qgtb; simpl.
  destruct (Qle_bool p 80) eqn:E80; simpl; [|reflexivity].
  destruct (Qle_bool p 90) eqn:E90; simpl; [reflexivity|].
  apply Qle_bool_iff in E80.
  assert (H : (p <= 90)%Q) by (eapply Qle_trans; [exact E80 | discriminate]).
  apply Qle_bool_iff in H. congruence.
Qed.

(** C8, as stated, fails: when the read of the system memory raises,
    [get_memory_usage] raises too; it returns no snapshot, zeroed or not. *)
Lemma get_memory_usage_raises :
  get_memory_usage unreadable = Raise PsutilError
  /\ get_memory_usage unreadable <> Ok zeroed
  /\ ~ (exists mi : MemoryInfo, get_memory_usage unreadable = Ok mi).
Proof.
  split; [reflexivity|]. split; [discriminate|].
  intros [mi Hmi]. discriminate Hmi.
Qed.

(** C8, amended.  [get_memory_usage] has no handler: it returns a snapshot,
    computed from the three reads, exactly when all of them succeed; the
    first read that raises makes the call raise the same error, and so does
    then the chunker, which asks the monitor for its window size. *)
Theorem get_memory_usage_propagates (os : psutil) :
  (forall (vm : svmem) (rss : Z),
      Process os = Ok tt -> virtual_memory os = Ok vm ->
      memory_info_rss os = Ok rss ->
      get_memory_usage os
      = Ok {| process_memory_mb := inject_Z rss / 1024 / 1024;
              system_memory_percent := percent vm;
              system_available_mb := inject_Z (available vm) / 1024 / 1024;
              system_total_mb := inject_Z (MemoryOptimizer.total vm) / 1024 / 1024 |})
  /\ (forall e : exn,
         Process os = Raise e
         \/ (Process os = Ok tt /\ virtual_memory os = Raise e)
         \/ (Process os = Ok tt /\ (exists vm, virtual_memory os = Ok vm)
             /\ memory_info_rss os = Raise e) ->
         get_memory_usage os = Raise e
         /\ forall fuel self text, create_text_chunks fuel os self text = Raise e).
Proof.
  split.
  - intros vm rss HP HV HR. unfold get_memory_usage. now rewrite HP, HV, HR.
  - intros e H.
    assert (G : get_memory_usage os = Raise e).
    { unfold get_memory_usage.
      destruct H as [HP | [[HP HV] | [HP [[vm HV] HR]]]].
      - now rewrite HP.
      - now rewrite HP, HV.
      - now rewrite HP, HV, HR. }
    split; [exact G|].
    intros fuel self text.
    unfold create_text_chunks, chunk_windows, get_optimal_chunk_size.
    now rewrite G.
Qed.

Lemma get_memory_usage_propagates_witness :
  get_memory_usage unreadable = Raise PsutilError
  /\ forall fuel self text,
       create_text_chunks fuel unreadable self text = Raise PsutilError.
Proof.
  apply (proj2 (get_memory_usage_propagates unreadable) PsutilError).
  right; left. split; reflexivity.
Defined.

(** ** Grading *)

Lemma grade_loop_acc (pairs : list (ExamItem * str)) :
  forall (c : Z) (d : list Detail),
    grade_loop pairs c d
    = (c + Z.of_nat (List.length (filter right_pair pairs)),
       d ++ map detail_of pairs).
Proof.
  induction pairs as [|[q a] pairs IH]; intros c d; simpl.
  - now rewrite Z.add_0_r, app_nil_r.
  - rewrite IH, <- app_assoc. unfold detail_of, right_pair; simpl.
    destruct (str_eqb a (answer q)); simpl List.length; f_equal; lia.
Qed.

Lemma filter_seq_shift (f : nat -> bool) (n : nat) :
  forall start,
    List.length (filter f (seq (S start) n))
    = List.length (filter (fun i => f (S i)) (seq start n)).
Proof.
  induction n as [|n IH]; intros start; simpl; [reflexivity|].
  destruct (f (S start)); simpl; now rewrite IH.
Qed.

Lemma filter_length_ext {A : Type} (f g : A -> bool) (l : list A) :
  (forall x, f x = g x) ->
  List.length (filter f l) = List.length (filter g l).
Proof.
  intros H. induction l as [|x l IH]; simpl; [reflexivity|].
  rewrite H. destruct (g x); simpl; now rewrite IH.
Qed.

Lemma count_right_cons (q : ExamItem) (a : str) exam user_answers :
  count_right (q :: exam) (a :: user_answers)
  = ((if str_eqb a (answer q) then 1 else 0) + count_right exam user_answers)%nat.
Proof.
  unfold count_right; simpl List.length; simpl seq.
  simpl filter. unfold answered_right at 1; simpl.
  pose proof (filter_seq_shift
                (answered_right (q :: exam) (a :: user_answers))
                (List.length exam) 0) as Hs.
  rewrite (filter_length_ext
             (fun i => answered_right (q :: exam) (a :: user_answers) (S i))
             (answered_right exam user_answers)) in Hs by reflexivity.
  destruct (list_eq_dec ascii_dec a (answer q)) as [E|E].
  - apply str_eqb_eq in E. rewrite E. simpl. now rewrite Hs.
  - apply str_eqb_neq in E. rewrite E. simpl. now rewrite Hs.
Qed.

Lemma count_right_no_answer (exam : list ExamItem) :
  count_right exam [] = O.
Proof.
  unfold count_right.
  rewrite (filter_length_ext (answered_right exam []) (fun _ => false)).
  - induction (seq 0 (List.length exam)); simpl; auto.
  - intros i. unfold answered_right.
    destruct (nth_error exam i); [|reflexivity]. now destruct i.
Qed.

Lemma count_pairs_right (exam : list ExamItem) :
  forall user_answers,
    List.length (filter right_pair (combine exam user_answers))
    = count_right exam user_answers.
Proof.
  induction exam as [|q exam IH]; intros [|a user_answers]; simpl;
    try reflexivity.
  - now rewrite count_right_no_answer.
  - rewrite count_right_cons, <- IH. unfold right_pair at 1; simpl.
    now destruct (str_eqb a (answer q)).
Qed.

Lemma grade_fields (exam : list ExamItem) (user_answers : list str) :
  let r := grade_multiple_choice_exam exam user_answers in
  correct r = Z.of_nat (count_right exam user_answers)
  /\ total r = len exam
  /\ details r = map detail_of (combine exam user_answers)
  /\ score r = (if 0 <? len exam
                then (inject_Z (correct r) / inject_Z (len exam) * 100)%Q
                else 0%Q).
Proof.
  unfold grade_multiple_choice_exam.
  rewrite grade_loop_acc, count_pairs_right; simpl.
  repeat split.
Qed.

(** C6, as stated, fails for the score.  With one right answer out of
    three the code stores the binary64 result of [1 / 3 * 100], which is
    33.33333333333333: it is not what Python gets for [100 * 1 / 3]
    (33.333333333333336), and it is not the rational 100/3. *)
Lemma grade_score_is_rounded :
  let r := grade_multiple_choice_exam three_items one_right in
  count_right three_items one_right = 1%nat
  /\ correct r = 1 /\ total r = 3
  /\ python_score r = Float 0x1.0aaaaaaaaaaaap+5
  /\ PrimFloat.eqb 0x1.0aaaaaaaaaaaap+5 (float_of_Z (100 * 1) / float_of_Z 3) = false
  /\ match float_to_Q 0x1.0aaaaaaaaaaaap+5 with
     | Some q => Qeq_bool q (100 # 3)
     | None => true
     end = false.
Proof.
  cbv zeta. repeat split; vm_compute; reflexivity.
Qed.

(** C6, amended.  With as many answers as items (fewer than [2^53]), [k]
    of which are the recorded correct answer of their item, the report has
    [correct = k] and [total = N]; the score stored is the binary64 result
    of [k / N * 100], division first, and the integer 0 for an empty exam.
    In exact arithmetic the same expression is [100*k/N]. *)
Theorem grade_counts_matches (exam : list ExamItem) (user_answers : list str)
    (k : nat) :
  List.length user_answers = List.length exam ->
  count_right exam user_answers = k ->
  len exam < 2 ^ 53 ->
  let r := grade_multiple_choice_exam exam user_answers in
  correct r = Z.of_nat k
  /\ total r = len exam
  /\ python_score r
     = (if 0 <? len exam
        then Float (float_of_Z (Z.of_nat k) / float_of_Z (len exam) * 100)%float
        else Int 0)
  /\ (exam = [] -> python_score r = Int 0)
  /\ (exam <> [] ->
      (score r == 100 * inject_Z (Z.of_nat k) / inject_Z (len exam))%Q).
Proof.
  intros _ Hk _ r.
  destruct (grade_fields exam user_answers) as (Hc & Ht & _ & Hs).
  fold r in Hc, Ht, Hs. rewrite Hk in Hc.
  assert (Hp : python_score r
               = (if 0 <? len exam
                  then Float (float_of_Z (Z.of_nat k) / float_of_Z (len exam) * 100)%float
                  else Int 0))
    by (unfold python_score; now rewrite Hc, Ht).
  repeat split; try assumption.
  - intros ->. now rewrite Hp.
  - intros Hne. rewrite Hs, Hc.
    assert (Hpos : 0 < len exam).
    { unfold len. destruct exam; [contradiction | simpl; lia]. }
    apply Z.ltb_lt in Hpos as Hb. rewrite Hb.
    field. intros H0. unfold Qeq in H0; simpl in H0. lia.
Qed.

Lemma grade_counts_matches_witness :
  let r := grade_multiple_choice_exam three_items one_right in
  correct r = 1
  /\ total r = 3
  /\ python_score r
     = (if 0 <? len three_items
        then Float (float_of_Z 1 / float_of_Z (len three_items) * 100)%float
        else Int 0)
  /\ (three_items = [] -> python_score r = Int 0)
  /\ (three_items <> [] ->
      (score r == 100 * inject_Z 1 / inject_Z (len three_items))%Q).
Proof.
  apply (@grade_counts_matches three_items one_right 1%nat);
    [reflexivity | reflexivity | vm_compute; reflexivity].
Defined.

(** C10.  With fewer answers than items the loop stops with the answers:
    there is one detail per answer, for the first items in order; the items
    left without an answer add nothing to [correct]; [total] is still the
    number of items and the score is taken over all of them. *)
Theorem grade_fewer_answers (exam : list ExamItem) (user_answers : list str) :
  (List.length user_answers < List.length exam)%nat ->
  let r := grade_multiple_choice_exam exam user_answers in
  List.length (details r) = List.length user_answers
  /\ map d_question (details r)
     = map question (firstn (List.length user_answers) exam)
  /\ map selected (details r) = user_answers
  /\ correct r
     = Z.of_nat (count_right (firstn (List.length user_answers) exam) user_answers)
  /\ correct r <= len user_answers
  /\ total r = len exam
  /\ score r = (inject_Z (correct r) / inject_Z (len exam) * 100)%Q.
Proof.
  intros Hlt r.
  destruct (grade_fields exam user_answers) as (Hc & Ht & Hd & Hs).
  fold r in Hc, Ht, Hd, Hs.
  assert (Hcomb : combine exam user_answers
                  = combine (firstn (List.length user_answers) exam) user_answers)
    by apply combine_firstn_r.
  assert (Hcount : count_right exam user_answers
                   = count_right (firstn (List.length user_answers) exam) user_answers).
  { now rewrite <- !count_pairs_right, <- Hcomb. }
  repeat split.
  - rewrite Hd, length_map, length_combine. lia.
  - rewrite Hd, map_map. simpl.
    revert Hlt. clear. revert exam.
    induction user_answers as [|a l IH]; intros [|q exam] H; simpl in *;
      try reflexivity; try lia.
    f_equal. apply IH. lia.
  - rewrite Hd, map_map. simpl.
    revert Hlt. clear. revert exam.
    induction user_answers as [|a l IH]; intros [|q exam] H; simpl in *;
      try reflexivity; try lia.
    f_equal. apply IH. lia.
  - now rewrite Hc, Hcount.
  - rewrite Hc, <- count_pairs_right. unfold len.
    pose proof (filter_length_le right_pair (combine exam user_answers)) as Hb.
    rewrite length_combine in Hb. lia.
  - exact Ht.
  - rewrite Hs.
    assert (Hpos : 0 < len exam) by (unfold len; lia).
    apply Z.ltb_lt in Hpos. now rewrite Hpos.
Qed.

Lemma grade_fewer_answers_witness :
  let exam := [ {| question := lit "q1"; options := [lit "a"; lit "b"];
                   answer := lit "a" |};
                {| question := lit "q2"; options := [lit "c"; lit "d"];
                   answer := lit "d" |} ] in
  let r := grade_multiple_choice_exam exam [lit "a"] in
  List.length (details r) = 1%nat
  /\ map d_question (details r) = [lit "q1"]
  /\ map selected (details r) = [lit "a"]
  /\ correct r = 1
  /\ correct r <= 1
  /\ total r = 2
  /\ score r = (inject_Z (correct r) / inject_Z 2 * 100)%Q.
Proof.
  intros exam.
  apply (@grade_fewer_answers exam [lit "a"]). simpl. lia.
Defined.

(** ** Page cleaning *)

Lemma collapse_ws_cons (c : ascii) (s : str) :
  collapse_ws (c :: s)
  = if isspace c then
      match s with
      | [] => [" "%char]
      | d :: _ => if isspace d then collapse_ws s else " "%char :: collapse_ws s
      end
    else c :: collapse_ws s.
Proof. reflexivity. Qed.



Lemma collapse_ws_blank_or_visible (s : str) :
  forallb blank_or_visible (collapse_ws s) = true.
Proof.
  induction s as [|c s IH]; [reflexivity|].
  rewrite collapse_ws_cons.
  destruct (isspace c) eqn:Ec.
  - destruct s as [|d s']; [reflexivity|].
    destruct (isspace d); [exact IH|].
    cbn [forallb]. now rewrite IH.
  - cbn [forallb]. unfold blank_or_visible at 1. now rewrite Ec, IH.
Qed.



Lemma split_char_absent (sep : ascii) (s : str) :
  forallb (fun c => negb (Ascii.eqb c sep)) s = true ->
  split_char sep s = [s].
Proof.
  induction s as [|c s IH]; [reflexivity|].
  cbn [forallb]. intros H. apply andb_true_iff in H as [Hc Hs].
  simpl. apply negb_true_iff in Hc. now rewrite Hc, (IH Hs).
Qed.

Lemma forallb_weaken {A : Type} (P R : A -> bool) (l : list A) :
  (forall x, P x = true -> R x = true) ->
  forallb P l = true -> forallb R l = true.
Proof.
  intros H. rewrite !forallb_forall. auto.
Qed.

Lemma collapse_ws_no_newline (s : str) :
  forallb (fun c => negb (Ascii.eqb c newline)) (collapse_ws s) = true.
Proof.
  apply forallb_weaken with (P := blank_or_visible);
    [|apply collapse_ws_blank_or_visible].
  intros c Hc. apply negb_true_iff. destruct (Ascii.eqb c newline) eqn:E; [|reflexivity].
  apply Ascii.eqb_eq in E. subst c. discriminate Hc.
Qed.








Lemma clean_text_one_line (text : str) :
  let t := strip (collapse_ws (filter (fun c => negb (is_control c)) text)) in
  _clean_text text = if 10 <? len t then t else [].
Proof.
  intros t. unfold _clean_text.
  rewrite split_char_absent by apply collapse_ws_no_newline.
  cbn [flat_map]. fold t. now destruct (10 <? len t).
Qed.




(** ** Streaming pipeline *)

Lemma after_record_step (md : Metadata) (i : Z) (chunk : str) (rest : list str)
    (k : nat) :
  after_record (S (S k)) (stream_loop md i (chunk :: rest))
  = after_record (S k) (stream_loop md (i + 1) rest).
Proof.
  cbn [stream_loop after_record].
  now destruct (i mod 5 =? 0).
Qed.

Lemma stream_loop_head (md : Metadata) (i : Z) (chunks : list str) :
  match stream_loop md i chunks with
  | CleanupMemory _ :: _ => False
  | _ => True
  end.
Proof. now destruct chunks. Qed.

Lemma reclaims_after_stream_loop (md : Metadata) (chunks : list str) :
  forall (i : Z) (k : nat),
    (1 <= k <= List.length chunks)%nat ->
    reclaims_after k (stream_loop md i chunks)
    = ((i + Z.of_nat k - 1) mod 5 =? 0).
Proof.
  induction chunks as [|chunk rest IH]; intros i k Hk; simpl in Hk; [lia|].
  destruct k as [|[|k]]; [lia | |].
  - unfold reclaims_after. cbn [stream_loop after_record].
    replace (i + Z.of_nat 1 - 1) with i by lia.
    destruct (i mod 5 =? 0); [reflexivity|].
    cbn [app]. pose proof (stream_loop_head md (i + 1) rest) as Hh.
    now destruct (stream_loop md (i + 1) rest) as [|[r|f] tr].
  - unfold reclaims_after in *. rewrite after_record_step, IH by lia.
    f_equal. f_equal. lia.
Qed.

Lemma records_stream_loop (md : Metadata) (chunks : list str) :
  forall i : Z,
    map chunk_id (records (stream_loop md i chunks))
    = map (fun j => i + Z.of_nat j) (seq 0 (List.length chunks))
    /\ map text (records (stream_loop md i chunks)) = chunks.
Proof.
  induction chunks as [|chunk rest IH]; intros i; [now split|].
  destruct (IH (i + 1)) as [IH1 IH2].
  assert (E : records (stream_loop md i (chunk :: rest))
              = {| chunk_id := i; text := chunk; metadata := md;
                   chunk_length := len chunk |}
                :: records (stream_loop md (i + 1) rest)).
  { cbn [stream_loop]. unfold records. cbn [flat_map app].
    rewrite flat_map_app. now destruct (i mod 5 =? 0). }
  rewrite E. split.
  - cbn [map List.length seq chunk_id]. rewrite IH1, <- seq_shift, map_map.
    f_equal; [lia|]. apply map_ext. intros j. lia.
  - cbn [map text]. now rewrite IH2.
Qed.

Lemma filter_seq_succ (i : Z) (n : nat) :
  filter (fun j => (i + Z.of_nat j) mod 5 =? 0) (seq 1 n)
  = map S (filter (fun j => (i + 1 + Z.of_nat j) mod 5 =? 0) (seq 0 n)).
Proof.
  rewrite <- seq_shift, filter_map_swap. f_equal.
  apply filter_ext. intros j. do 2 f_equal. lia.
Qed.

Lemma cleanups_stream_loop (md : Metadata) (chunks : list str) :
  forall i : Z,
    cleanups (stream_loop md i chunks)
    = map (fun _ => false)
          (filter (fun j => (i + Z.of_nat j) mod 5 =? 0)
                  (seq 0 (List.length chunks))).
Proof.
  induction chunks as [|chunk rest IH]; intros i; [reflexivity|].
  assert (E : cleanups (stream_loop md i (chunk :: rest))
              = (if i mod 5 =? 0 then [false] else [])
                ++ cleanups (stream_loop md (i + 1) rest)).
  { cbn [stream_loop]. unfold cleanups. cbn [flat_map app].
    rewrite flat_map_app. now destruct (i mod 5 =? 0). }
  rewrite E, IH. cbn [List.length seq filter].
  replace (i + Z.of_nat 0) with i by lia.
  rewrite filter_seq_succ.
  destruct (i mod 5 =? 0); cbn [app map]; now rewrite map_map.
Qed.

Lemma process_pdf_streaming_ok fuel os self md extracted tr :
  process_pdf_streaming fuel os self md extracted = Ok tr ->
  exists chunks, tr = stream_loop md 0 chunks.
Proof.
  unfold process_pdf_streaming. intros H.
  destruct extracted as [full_text| |]; try discriminate H. simpl in H.
  destruct (create_text_chunks fuel os self full_text) as [chunks| |];
    try discriminate H.
  exists chunks. simpl in H. congruence.
Qed.

(** C7, as stated, fails: on a text of 2400 words the default processor
    streams six records; the call of [cleanup_memory] comes after the first
    record, and none comes after the fifth. *)
Lemma streaming_no_reclaim_after_fifth_record :
  exists tr,
    process_pdf_streaming 20 (healthy (50 # 1)) default [] (Ok (words_text 2400))
    = Ok tr
    /\ List.length (records tr) = 6%nat
    /\ reclaims_after 5 tr = false
    /\ reclaims_after 1 tr = true.
Proof.
  eexists. split; [vm_compute; reflexivity|].
  vm_compute. auto.
Qed.

(** C7, amended.  For a consumer that pulls every record, the loop of
    [process_pdf_streaming] numbers the records from 0 and calls
    [cleanup_memory()], never forced, after the records whose number is a
    multiple of 5, and after no other: after the 1st, 6th, 11th, ...
    record. *)
Theorem streaming_reclaims_after_multiples_of_five
    fuel os self md extracted (tr : list event) :
  process_pdf_streaming fuel os self md extracted = Ok tr ->
  let n := List.length (records tr) in
  map chunk_id (records tr) = map Z.of_nat (seq 0 n)
  /\ (forall k, (1 <= k <= n)%nat ->
                reclaims_after k tr = ((Z.of_nat k - 1) mod 5 =? 0))
  /\ cleanups tr
     = map (fun _ => false)
           (filter (fun j => Z.of_nat j mod 5 =? 0) (seq 0 n)).
Proof.
  intros H n. apply process_pdf_streaming_ok in H as [chunks ->].
  destruct (records_stream_loop md chunks 0) as [Hid Htext].
  assert (Hn : n = List.length chunks).
  { unfold n. rewrite <- Htext at 2. now rewrite length_map. }
  rewrite Hn. repeat split.
  - rewrite Hid. now apply map_ext.
  - intros k Hk. rewrite reclaims_after_stream_loop by exact Hk.
    now replace (0 + Z.of_nat k - 1) with (Z.of_nat k - 1) by lia.
  - now rewrite cleanups_stream_loop.
Qed.

Lemma streaming_reclaims_after_multiples_of_five_witness :
  exists tr,
    process_pdf_streaming 20 (healthy (50 # 1)) {| chunk_size := 12; overlap := 2 |}
      [] (Ok (words_text 112)) = Ok tr
    /\ map chunk_id (records tr) = [0; 1; 2; 3; 4; 5; 6; 7; 8; 9; 10]
    /\ map (fun k => reclaims_after k tr) (seq 1 11)
       = [true; false; false; false; false; true; false; false; false; false; true]
    /\ (let n := List.length (records tr) in
        map chunk_id (records tr) = map Z.of_nat (seq 0 n)
        /\ (forall k, (1 <= k <= n)%nat ->
                      reclaims_after k tr = ((Z.of_nat k - 1) mod 5 =? 0))
        /\ cleanups tr
           = map (fun _ => false)
                 (filter (fun j => Z.of_nat j mod 5 =? 0) (seq 0 n))).
Proof.
  eexists. split; [vm_compute; reflexivity|].
  split; [reflexivity|]. split; [reflexivity|].
  apply (@streaming_reclaims_after_multiples_of_five
           20 (healthy (50 # 1)) {| chunk_size := 12; overlap := 2 |} []
           (Ok (words_text 112))).
  vm_compute. reflexivity.
Defined.

(** ** Chunker *)

Section ChunkLoop.

Variable words : list str.
Variables optimal_chunk_size overlap : Z.

Let total_words := len words.

(** A window size that does not exceed the overlap never lets [start_idx]
    advance: on a text with more words than the window the loop runs for
    ever. *)
Lemma chunk_loop_stuck :
  optimal_chunk_size <= overlap ->
  forall (fuel : nat) (start : Z),
    start < total_words -> start + optimal_chunk_size < total_words ->
    chunk_loop fuel words optimal_chunk_size overlap start = OutOfFuel.
Proof.
  intros Hso. induction fuel as [|fuel IH]; intros start H1 H2; [reflexivity|].
  cbn [chunk_loop]. fold total_words.
  apply Z.ltb_lt in H1 as Hb. rewrite Hb.
  rewrite (Z.min_l (start + optimal_chunk_size) total_words) by lia.
  assert (Hle : (total_words <=? start + optimal_chunk_size) = false)
    by (apply Z.leb_gt; lia).
  rewrite Hle, IH by lia. reflexivity.
Qed.

Hypothesis overlap_in_window : 0 <= overlap < optimal_chunk_size.

(** With [0 <= overlap < optimal_chunk_size] the loop stops within
    [total_words - start + 1] turns; its windows begin at [start], each
    next one begins [overlap] words before the end of the one before, and
    the last one ends with the words. *)
Lemma chunk_loop_from :
  forall (fuel : nat) (start : Z),
    0 <= start -> (1 <= fuel)%nat -> total_words - start < Z.of_nat fuel ->
    exists ws,
      chunk_loop fuel words optimal_chunk_size overlap start = Ok ws
      /\ (total_words <= start -> ws = [])
      /\ (start < total_words ->
          exists w rest, ws = w :: rest /\ start_idx w = start)
      /\ Forall (window_ok words optimal_chunk_size) ws
      /\ chained overlap ws
      /\ adjacent (fun w1 _ => end_idx w1 - start_idx w1 = optimal_chunk_size) ws
      /\ (forall i, start <= i < total_words ->
                    exists w, In w ws /\ start_idx w <= i < end_idx w)
      /\ last (map end_idx ws) total_words = total_words.
Proof.
  induction fuel as [|fuel IH]; intros start H0 Hf Hm; [lia|].
  cbn [chunk_loop]. fold total_words.
  destruct (start <? total_words) eqn:Hlt.
  2:{ apply Z.ltb_ge in Hlt. exists []. repeat split; auto; try lia. }
  apply Z.ltb_lt in Hlt.
  set (end_ := Z.min (start + optimal_chunk_size) total_words).
  set (w := {| start_idx := start; end_idx := end_;
               yielded := if 50 <? len (strip (join [" "%char] (slice words start end_)))
                          then Some (join [" "%char] (slice words start end_))
                          else None |}).
  assert (Hw : window_ok words optimal_chunk_size w).
  { unfold window_ok; cbn [start_idx end_idx yielded w]. fold total_words. unfold end_.
    repeat split; try lia. }
  destruct (total_words <=? end_) eqn:Hend.
  - apply Z.leb_le in Hend. exists [w].
    assert (He : end_ = total_words) by (unfold end_ in *; lia).
    repeat split; auto; try lia.
    + exists w, []. now split.
    + intros i Hi. exists w. split; [now left|]. cbn [start_idx end_idx w]. lia.
  - apply Z.leb_gt in Hend.
    assert (He : end_ = start + optimal_chunk_size) by (unfold end_ in *; lia).
    destruct (IH (end_ - overlap)) as (rest & Hrest & _ & Hfirst & Hok & Hch & Hsz & Hcov & Hlast);
      try lia.
    destruct Hfirst as (w2 & rest' & -> & Hw2); [lia|].
    exists (w :: w2 :: rest'). rewrite Hrest. cbn [bind].
    pose proof (Forall_inv Hok) as Hw2ok. unfold window_ok in Hw2ok.
    fold total_words in Hw2ok.
    repeat split; auto; try lia.
    + exists w, (w2 :: rest'). now split.
    + unfold overlap_size. cbn [start_idx end_idx w]. lia.
    + cbn [start_idx end_idx w]. lia.
    + intros i Hi. destruct (Z_lt_le_dec i end_) as [Hi'|Hi'].
      * exists w. split; [now left|]. cbn [start_idx end_idx w]. lia.
      * destruct (Hcov i) as (w' & Hin & Hr); [lia|].
        exists w'. split; [now right | exact Hr].
Qed.

End ChunkLoop.

(** C5.  The loop does not stop for every window size: with
    [PDFProcessor(chunk_size=100, overlap=50)] on a machine used at 85% the
    recommended size is 50, no larger than the overlap, and on a text of 51
    words [start_idx] goes back to 0 after each window: no amount of fuel
    lets [create_text_chunks] return. *)
Theorem create_text_chunks_never_returns :
  get_optimal_chunk_size (healthy (85 # 1)) (len (words_text 51)) 100 = Ok 50
  /\ forall fuel : nat,
       create_text_chunks fuel (healthy (85 # 1))
         {| chunk_size := 100; overlap := 50 |} (words_text 51)
       = OutOfFuel.
Proof.
  split; [reflexivity|].
  intros fuel. unfold create_text_chunks, chunk_windows.
  cbn [chunk_size PDFProcessor.overlap].
  change (get_optimal_chunk_size (healthy (85 # 1)) (len (words_text 51)) 100)
    with (@Ok Z 50).
  cbn [bind].
  assert (Hlen : len (split_ws (words_text 51)) = 51) by (vm_compute; reflexivity).
  rewrite chunk_loop_stuck; [reflexivity | lia | rewrite Hlen; lia | rewrite Hlen; lia].
Qed.

(** C4, as stated, fails for the chunks that are yielded.  With window size
    4 and overlap 1 the loop visits the windows [0,4), [3,7) and [6,10) of
    [uneven_text]; the text of [3,7) has 26 characters and is not yielded,
    so the two chunks share no word and leave words 4 and 5 out.  With the
    default sizes a text of two short words yields no chunk at all. *)
Lemma yielded_chunks_leave_a_gap :
  (exists ws,
      chunk_windows 10 (healthy (50 # 1)) {| chunk_size := 4; overlap := 1 |}
        uneven_text = Ok ws
      /\ map span ws = [(0, 4); (3, 7); (6, 10)]
      /\ map span (yielded_windows ws) = [(0, 4); (6, 10)]
      /\ ~ chained 1 (yielded_windows ws)
      /\ ~ covered 10 (yielded_windows ws))
  /\ create_text_chunks 10 (healthy (50 # 1)) default (lit "hola mundo") = Ok [].
Proof.
  split; [|reflexivity].
  eexists. split; [vm_compute; reflexivity|].
  split; [reflexivity|]. split; [reflexivity|]. split.
  - intros H. vm_compute in H. destruct H as [[H _] _]. discriminate H.
  - intros H. destruct (H 4) as (w & Hin & Hr); [lia|].
    cbn in Hin. destruct Hin as [<-|[<-|[]]]; cbn in Hr; lia.
Qed.

(** C4, amended.  For [0 <= O < S] the loop returns, and the windows it
    visits, yielded or not, are chained: the first begins at word 0, each
    next one begins exactly [O] words before the end of the one before and
    shares exactly [O] words with it, every window but the last has [S]
    words, the last ends with the text, and every word lies in a window.
    A window is yielded only when its text has more than 50 characters; when
    none is dropped the yielded chunks are chained and cover the words in the
    same way. *)
Theorem windows_chain_and_cover (os : psutil) (self : PDFProcessor.PDFProcessor)
    (text : str) (size : Z) :
  get_optimal_chunk_size os (len text) (chunk_size self) = Ok size ->
  0 <= PDFProcessor.overlap self < size ->
  let words := split_ws text in
  exists ws,
    chunk_windows (S (List.length words)) os self text = Ok ws
    /\ create_text_chunks (S (List.length words)) os self text = Ok (yields ws)
    /\ Forall (window_ok words size) ws
    /\ map start_idx (firstn 1 ws) = (if 0 <? len words then [0] else [])
    /\ chained (PDFProcessor.overlap self) ws
    /\ adjacent (fun w1 _ => end_idx w1 - start_idx w1 = size) ws
    /\ last (map end_idx ws) (len words) = len words
    /\ covered (len words) ws
    /\ (Forall (fun w => yielded w <> None) ws ->
        chained (PDFProcessor.overlap self) (yielded_windows ws)
        /\ covered (len words) (yielded_windows ws)).
Proof.
  intros Hsize Hov words.
  destruct (@chunk_loop_from words size (PDFProcessor.overlap self) Hov
              (S (List.length words)) 0)
    as (ws & Hws & Hnil & Hfirst & Hok & Hch & Hsz & Hcov & Hlast);
    [lia | lia | unfold len; lia |].
  exists ws.
  assert (Hw : chunk_windows (S (List.length words)) os self text = Ok ws).
  { unfold chunk_windows. rewrite Hsize. exact Hws. }
  split; [exact Hw|].
  split; [unfold create_text_chunks; now rewrite Hw|].
  split; [exact Hok|]. split.
  { destruct (0 <? len words) eqn:E.
    - apply Z.ltb_lt in E. destruct (Hfirst E) as (w & rest & -> & Hs).
      cbn. now rewrite Hs.
    - apply Z.ltb_ge in E. now rewrite (Hnil E). }
  split; [exact Hch|]. split; [exact Hsz|]. split; [exact Hlast|].
  assert (Hcovered : covered (len words) ws) by (intros i Hi; apply Hcov; lia).
  split; [exact Hcovered|].
  intros Hall.
  assert (Hsame : yielded_windows ws = ws).
  { unfold yielded_windows. apply forallb_filter_id.
    apply forallb_forall. intros w Hin.
    rewrite Forall_forall in Hall. specialize (Hall w Hin).
    now destruct (yielded w). }
  now rewrite Hsame.
Qed.

Lemma windows_chain_and_cover_witness :
  let self := {| chunk_size := 12; overlap := 2 |} in
  let words := split_ws (words_text 60) in
  (exists ws,
      chunk_windows (S (List.length words)) (healthy (50 # 1)) self (words_text 60)
      = Ok ws
      /\ map span ws = [(0, 12); (10, 22); (20, 32); (30, 42); (40, 52); (50, 60)]
      /\ yielded_windows ws = ws)
  /\ exists ws,
      chunk_windows (S (List.length words)) (healthy (50 # 1)) self (words_text 60)
      = Ok ws
      /\ create_text_chunks (S (List.length words)) (healthy (50 # 1)) self
           (words_text 60) = Ok (yields ws)
      /\ Forall (window_ok words 12) ws
      /\ map start_idx (firstn 1 ws) = (if 0 <? len words then [0] else [])
      /\ chained 2 ws
      /\ adjacent (fun w1 _ => end_idx w1 - start_idx w1 = 12) ws
      /\ last (map end_idx ws) (len words) = len words
      /\ covered (len words) ws
      /\ (Forall (fun w => yielded w <> None) ws ->
          chained 2 (yielded_windows ws)
          /\ covered (len words) (yielded_windows ws)).
Proof.
  split.
  - eexists. split; [vm_compute; reflexivity|]. split; reflexivity.
  - apply (@windows_chain_and_cover (healthy (50 # 1))
             {| chunk_size := 12; overlap := 2 |} (words_text 60) 12).
    + reflexivity.
    + simpl. lia.
Defined.

(** ** Sampling and shuffling *)

Lemma remove_at_length {A : Type} (l : list A) :
  forall i x, nth_error l i = Some x ->
              List.length (Random.remove_at i l) = pred (List.length l).
Proof.
  induction l as [|y l IH]; intros [|i] x H; simpl in *; try discriminate;
    [reflexivity|].
  rewrite (IH _ _ H). destruct l; [now destruct i | reflexivity].
Qed.

Lemma remove_at_incl {A : Type} (l : list A) :
  forall i, incl (Random.remove_at i l) l.
Proof.
  induction l as [|y l IH]; intros [|i]; simpl;
    auto using incl_refl, incl_tl, incl_cons, in_eq.
Qed.

Lemma draw_in_range (r : Random.source) (bound : nat) :
  (0 < bound)%nat -> (fst (Random.draw r bound) < bound)%nat.
Proof.
  intros H. destruct r as [|x r]; simpl; [exact H|].
  apply Nat.mod_upper_bound. lia.
Qed.

Lemma pick_length {A : Type} (k : nat) :
  forall (pool : list A) (r : Random.source),
    List.length (fst (Random.pick k pool r)) = Nat.min k (List.length pool).
Proof.
  induction k as [|k IH]; intros pool r; [reflexivity|].
  cbn [Random.pick].
  destruct (Random.draw r (List.length pool)) as [i r'] eqn:Ed.
  destruct (nth_error pool i) as [x|] eqn:En.
  - specialize (IH (Random.remove_at i pool) r').
    destruct (Random.pick k (Random.remove_at i pool) r') as [xs r''].
    cbn [fst List.length] in *. rewrite IH, (remove_at_length _ _ En).
    destruct pool; [now destruct i | simpl; lia].
  - apply nth_error_None in En.
    destruct pool as [|y pool]; [reflexivity|].
    pose proof (@draw_in_range r (List.length (y :: pool))) as Hd.
    rewrite Ed in Hd. simpl in Hd, En. lia.
Qed.

Lemma pick_incl {A : Type} (k : nat) :
  forall (pool : list A) (r : Random.source),
    incl (fst (Random.pick k pool r)) pool.
Proof.
  induction k as [|k IH]; intros pool r; [apply incl_nil_l|].
  cbn [Random.pick].
  destruct (Random.draw r (List.length pool)) as [i r'].
  destruct (nth_error pool i) as [x|] eqn:En; [|apply incl_nil_l].
  specialize (IH (Random.remove_at i pool) r').
  destruct (Random.pick k (Random.remove_at i pool) r') as [xs r''].
  cbn [fst] in *. apply incl_cons.
  - eapply nth_error_In; eassumption.
  - eapply incl_tran; [exact IH | apply remove_at_incl].
Qed.

Lemma sample_within {A : Type} (population : list A) (k : Z) (r : Random.source) :
  0 <= k <= len population ->
  exists l r',
    Random.sample population k r = Ok (l, r')
    /\ List.length l = Z.to_nat k /\ incl l population.
Proof.
  intros Hk. unfold Random.sample.
  assert (E : (k <? 0) || (len population <? k) = false).
  { apply orb_false_iff. split; [apply Z.ltb_ge | apply Z.ltb_ge]; lia. }
  rewrite E.
  pose proof (pick_length (Z.to_nat k) population r) as Hl.
  pose proof (pick_incl (Z.to_nat k) population r) as Hi.
  destruct (Random.pick (Z.to_nat k) population r) as [l r'].
  exists l, r'. cbn [fst] in *. repeat split; auto.
  rewrite Hl. unfold len in Hk. lia.
Qed.

Lemma shuffle_length {A : Type} (x : list A) (r : Random.source) :
  List.length (fst (Random.shuffle x r)) = List.length x.
Proof. unfold Random.shuffle. rewrite pick_length. lia. Qed.

Lemma shuffle_incl {A : Type} (x : list A) (r : Random.source) :
  incl (fst (Random.shuffle x r)) x.
Proof. apply pick_incl. Qed.

(** ** Question generation *)

Lemma accept_length (model : str) (l : lang) (result : list str) :
  forall (questions : list Question) (used : list str),
    (List.length (fst (accept model l result questions used))
     <= List.length questions + List.length result)%nat.
Proof.
  induction result as [|r result IH]; intros questions used;
    cbn [accept fst List.length]; [lia|].
  destruct (match l with
            | en => valid_en (strip r) used
            | es => valid_es (strip r) used
            end).
  - etransitivity; [apply IH|]. rewrite length_app. simpl. lia.
  - etransitivity; [apply IH|]. lia.
Qed.

(** The count is only looked at between two sentences: with a pipeline that
    returns at most [k] sequences per prompt the loop may hand back up to
    [num_questions - 1 + k] questions. *)
Lemma sentence_loop_bound (model : str) (p : Pipeline) (num_questions : Z)
    (k : nat) :
  (forall prompt result, p prompt = Some result -> (List.length result <= k)%nat) ->
  forall (sentences : list str) (questions : list Question) (used : list str),
    len questions <= Z.max 0 (num_questions - 1 + Z.of_nat k) ->
    len (sentence_loop model p num_questions sentences questions used)
    <= Z.max 0 (num_questions - 1 + Z.of_nat k).
Proof.
  intros Hp. induction sentences as [|sent rest IH]; intros questions used Hq;
    cbn [sentence_loop]; [exact Hq|].
  destruct (len (strip sent) <? 30); [now apply IH|].
  destruct (num_questions <=? len questions) eqn:Hn; [exact Hq|].
  apply Z.leb_gt in Hn.
  destruct (startswith model (lit "mrm8488")); cbv beta iota.
  - destruct (p _) as [result|] eqn:Er; [|now apply IH].
    pose proof (accept_length model es result questions used) as Ha.
    destruct (accept model es result questions used) as [questions' used'].
    apply IH. cbn [fst] in Ha. apply Hp in Er. unfold len in *. lia.
  - destruct (p _) as [result|] eqn:Er; [|now apply IH].
    pose proof (accept_length model en result questions used) as Ha.
    destruct (accept model en result questions used) as [questions' used'].
    apply IH. cbn [fst] in Ha. apply Hp in Er. unfold len in *. lia.
Qed.

(** C3.  Asked for one question on a text of one sentence, with a pipeline
    that returns three acceptable sequences for the prompt, the function
    returns three questions: the count is compared with [num_questions]
    before a sentence is sent to the pipeline, not after each question that
    is appended. *)
Theorem generate_questions_exceeds_request :
  exists qs,
    generate_questions_from_text (answering three_answers) one_sentence 1 = Ok qs
    /\ map q_question qs = three_answers
    /\ len qs = 3.
Proof.
  eexists. split; [vm_compute; reflexivity|]. split; reflexivity.
Qed.

(** ** Exam builder *)

(** Placeholders are used only when no sentence is left; otherwise the
    distractors are as many sentences as there are, up to [n]. *)
Lemma generate_distractors_count (correct context : str) (n : Z)
    (r : Random.source) :
  0 <= n ->
  exists ds r',
    _generate_distractors correct context n r = Ok (ds, r')
    /\ len ds = match distractor_sentences correct context with
                | [] => n
                | _ :: _ => Z.min n (len (distractor_sentences correct context))
                end
    /\ (distractor_sentences correct context <> [] ->
        incl ds (distractor_sentences correct context)).
Proof.
  intros Hn. unfold _generate_distractors. fold (distractor_sentences correct context).
  destruct (distractor_sentences correct context) as [|s sentences] eqn:E.
  - exists (repeat placeholder (Z.to_nat n)), r.
    repeat split; [|contradiction].
    unfold len. rewrite repeat_length. lia.
  - destruct (@sample_within _ (s :: sentences)
                (Z.min n (len (s :: sentences))) r) as (ds & r' & Hs & Hl & Hi).
    { unfold len. simpl List.length. lia. }
    exists ds, r'. repeat split; auto.
    unfold len in *. rewrite Hl. simpl List.length in *. lia.
Qed.

Lemma exam_of_one_question (get_close_matches : str -> list str -> list str)
    (fuel : nat) (os : psutil) (self : QuestionGenerator.QuestionGenerator)
    (text chunk : str) (q : Question) (num_options : Z) (r : Random.source) :
  create_text_chunks fuel os default text = Ok [chunk] ->
  generate_questions_from_text self chunk 1 = Ok [q] ->
  let correct := _extract_answer_from_question get_close_matches (q_question q) chunk in
  generate_multiple_choice_exam get_close_matches fuel os self text 1 num_options r
  = ('(ds, r1) <- _generate_distractors correct chunk (num_options - 1) r ;;
     Ok [ {| question := q_question q;
             options := fst (Random.shuffle (ds ++ [correct]) r1);
             answer := correct |} ]).
Proof.
  intros Hc Hq correct. unfold generate_multiple_choice_exam.
  rewrite Hc. cbn [bind chunk_idx_loop exam].
  change (len (@nil ExamItem) <? 1) with true. cbv iota.
  rewrite Hq. cbn [bind item_loop used_questions rnd mem existsb].
  fold correct.
  destruct (_generate_distractors correct chunk (num_options - 1) r)
    as [[ds r1]| |]; cbn [bind]; try reflexivity.
  destruct (Random.shuffle (ds ++ [correct]) r1) as [opts r2].
  cbn [exam app fst]. reflexivity.
Qed.

(** The answer is a sentence of the chunk as soon as the chunk has one and
    the closest-match heuristic answers with its possibilities. *)
Lemma extract_answer_in (get_close_matches : str -> list str -> list str)
    (question context : str) :
  (forall word possibilities best,
      In best (get_close_matches word possibilities) -> In best possibilities) ->
  filter (fun s : list ascii => 10 <? len s) (map strip (split_char "."%char context)) <> [] ->
  In (_extract_answer_from_question get_close_matches question context)
     (filter (fun s : list ascii => 10 <? len s) (map strip (split_char "."%char context))).
Proof.
  intros Hgcm Hne. unfold _extract_answer_from_question. cbv zeta.
  remember (filter (fun s : list ascii => 10 <? len s)
              (map strip (split_char "."%char context))) as sentences eqn:Es.
  clear Es.
  destruct (get_close_matches question sentences) as [|best l] eqn:E.
  - destruct sentences; [contradiction | now left].
  - apply (Hgcm question). rewrite E. now left.
Qed.

Lemma three_sentences_distractors (correct : str) :
  In correct [ lit "La fotosintesis convierte la luz solar en energia quimica";
               lit "Las plantas absorben agua";
               lit "El oxigeno se libera al aire" ] ->
  List.length (distractor_sentences correct three_sentences) = 2%nat
  /\ ~ In placeholder (distractor_sentences correct three_sentences)
  /\ correct <> placeholder.
Proof.
  intros [<-|[<-|[<-|[]]]];
    (split; [vm_compute; reflexivity|]);
    (split; [vm_compute; intros [H|[H|[]]]; discriminate H | discriminate]).
Qed.

(** C2.  An item asked with four options on a chunk that has, besides the
    correct answer, two usable sentences gets those two sentences as
    distractors and no placeholder: three options, not four.  This holds
    whatever the closest-match heuristic picks among the sentences and
    whatever the random draws are. *)
Theorem exam_item_short_of_options
    (get_close_matches : str -> list str -> list str) (r : Random.source) :
  (forall word possibilities best,
      In best (get_close_matches word possibilities) -> In best possibilities) ->
  exists item,
    generate_multiple_choice_exam get_close_matches 10 (healthy (50 # 1))
      (answering [lit "Que convierte la fotosintesis?"]) three_sentences 1 4 r
    = Ok [item]
    /\ List.length (distractor_sentences (answer item) three_sentences) = 2%nat
    /\ List.length (options item) = 3%nat
    /\ ~ In placeholder (options item).
Proof.
  intros Hgcm.
  rewrite (@exam_of_one_question get_close_matches 10 (healthy (50 # 1))
             (answering [lit "Que convierte la fotosintesis?"])
             three_sentences three_sentences
             {| q_question := lit "Que convierte la fotosintesis?";
                q_type := lit "QG"; q_model := spanish_model |} 4 r);
    [| vm_compute; reflexivity | vm_compute; reflexivity].
  cbn [q_question].
  set (correct := _extract_answer_from_question get_close_matches
                    (lit "Que convierte la fotosintesis?") three_sentences).
  assert (Hin : In correct
                  [ lit "La fotosintesis convierte la luz solar en energia quimica";
                    lit "Las plantas absorben agua";
                    lit "El oxigeno se libera al aire" ]).
  { assert (Hs : filter (fun s : list ascii => 10 <? len s)
                     (map strip (split_char "."%char three_sentences))
                   = [ lit "La fotosintesis convierte la luz solar en energia quimica";
                       lit "Las plantas absorben agua";
                       lit "El oxigeno se libera al aire" ])
      by (vm_compute; reflexivity).
    rewrite <- Hs. apply extract_answer_in; [exact Hgcm|].
    rewrite Hs. discriminate. }
  destruct (three_sentences_distractors Hin) as (Hlen & Hno & Hne).
  destruct (@generate_distractors_count correct three_sentences (4 - 1) r)
    as (ds & r' & Hg & Hl & Hi); [lia|].
  rewrite Hg. cbn [bind]. eexists. split; [reflexivity|].
  cbn [options answer].
  assert (Hds : distractor_sentences correct three_sentences <> [])
    by (intros E; rewrite E in Hlen; discriminate Hlen).
  specialize (Hi Hds).
  destruct (distractor_sentences correct three_sentences) as [|s ss] eqn:Es;
    [contradiction|].
  split; [exact Hlen|]. split.
  - rewrite shuffle_length, length_app. unfold len in Hl.
    rewrite Hlen in Hl. simpl List.length. lia.
  - intros Hp. apply shuffle_incl in Hp. apply in_app_or in Hp as [Hp|[Hp|[]]].
    + apply Hno, Hi, Hp.
    + now apply Hne.
Qed.

Lemma exam_item_short_of_options_witness :
  exists item,
    generate_multiple_choice_exam (fun _ _ => []) 10 (healthy (50 # 1))
      (answering [lit "Que convierte la fotosintesis?"]) three_sentences 1 4
      [1; 2; 3; 4; 5]%nat
    = Ok [item]
    /\ List.length (distractor_sentences (answer item) three_sentences) = 2%nat
    /\ List.length (options item) = 3%nat
    /\ ~ In placeholder (options item).
Proof.
  apply (@exam_item_short_of_options (fun _ _ => []) [1; 2; 3; 4; 5]%nat).
  intros word possibilities best H. destruct H.
Defined.

(* ================================================================== *)
(** * Further properties of the code *)

(** ** Grading, continued *)

Lemma is_correct_detail_of (pairs : list (ExamItem * str)) :
  filter is_correct (map detail_of pairs) = map detail_of (filter right_pair pairs).
Proof.
  induction pairs as [|p pairs IH]; [reflexivity|].
  cbn [map filter]. change (is_correct (detail_of p)) with (right_pair p).
  destruct (right_pair p); cbn [map]; now rewrite IH.
Qed.

(** X1.  Whatever the two lists are, the number of correct answers lies
    between 0 and both the number of items and the number of answers, it is
    the number of details flagged correct, and the score lies between 0 and
    100. *)
Theorem grade_within_bounds (exam : list ExamItem) (user_answers : list str) :
  let r := grade_multiple_choice_exam exam user_answers in
  0 <= correct r <= total r
  /\ correct r <= len user_answers
  /\ len (filter is_correct (details r)) = correct r
  /\ (0 <= score r)%Q /\ (score r <= 100)%Q.
Proof.
  intros r.
  destruct (grade_fields exam user_answers) as (Hc & Ht & Hd & Hs).
  fold r in Hc, Ht, Hd, Hs.
  pose proof (filter_length_le right_pair (combine exam user_answers)) as Hb.
  rewrite length_combine in Hb.
  assert (Hcount : correct r
                   = Z.of_nat (List.length (filter right_pair (combine exam user_answers))))
    by now rewrite Hc, <- count_pairs_right.
  assert (H1 : 0 <= correct r <= total r) by (rewrite Ht; unfold len; lia).
  repeat split; try (unfold len; lia).
  - rewrite Hd, is_correct_detail_of. unfold len. now rewrite length_map.
  - rewrite Hs. destruct (0 <? len exam) eqn:E; [|discriminate].
    rewrite <- Ht. destruct (total r) as [|t|t]; try lia.
    unfold Qle, Qmult, Qdiv, Qinv, inject_Z; simpl. nia.
  - rewrite Hs. destruct (0 <? len exam) eqn:E; [|discriminate].
    rewrite <- Ht. destruct (total r) as [|t|t] eqn:Et; try lia.
    unfold Qle, Qmult, Qdiv, Qinv, inject_Z; simpl. nia.
Qed.

Lemma combine_own_answers (exam : list ExamItem) :
  filter right_pair (combine exam (map answer exam)) = combine exam (map answer exam).
Proof.
  induction exam as [|q exam IH]; [reflexivity|].
  cbn [map combine filter]. unfold right_pair at 1. cbn [fst snd].
  now rewrite str_eqb_refl, IH.
Qed.

(** X2.  Grading an exam (with at least one item) against its own recorded
    answers counts every item as correct and scores 100. *)
Theorem grade_own_answers_is_full_score (exam : list ExamItem) :
  exam <> [] ->
  let r := grade_multiple_choice_exam exam (map answer exam) in
  correct r = len exam /\ total r = len exam
  /\ (score r == 100)%Q
  /\ forallb is_correct (details r) = true.
Proof.
  intros Hne r.
  destruct (grade_fields exam (map answer exam)) as (Hc & Ht & Hd & Hs).
  fold r in Hc, Ht, Hd, Hs.
  assert (Hall : correct r = len exam).
  { rewrite Hc, <- count_pairs_right, combine_own_answers, length_combine, length_map.
    unfold len. lia. }
  assert (Hpos : 0 < len exam).
  { unfold len. destruct exam; [contradiction | simpl; lia]. }
  repeat split; auto.
  - rewrite Hs, Hall. apply Z.ltb_lt in Hpos as Hb. rewrite Hb.
    field. intros H0. unfold Qeq in H0; simpl in H0. lia.
  - rewrite Hd. apply forallb_forall. intros d Hin.
    apply in_map_iff in Hin as (p & <- & Hp).
    rewrite <- combine_own_answers in Hp. now apply filter_In in Hp.
Qed.

Lemma grade_own_answers_is_full_score_witness :
  let exam := [ {| question := lit "q1"; options := [lit "a"; lit "b"];
                   answer := lit "a" |} ] in
  let r := grade_multiple_choice_exam exam (map answer exam) in
  correct r = len exam /\ total r = len exam
  /\ (score r == 100)%Q
  /\ forallb is_correct (details r) = true.
Proof.
  intros exam. apply (@grade_own_answers_is_full_score exam). discriminate.
Defined.

(** X3.  Answers beyond the last item are never looked at: the report is
    the one of the answers that have an item. *)
Theorem grade_ignores_extra_answers (exam : list ExamItem)
    (user_answers extra : list str) :
  List.length user_answers = List.length exam ->
  grade_multiple_choice_exam exam (user_answers ++ extra)
  = grade_multiple_choice_exam exam user_answers.
Proof.
  intros Hlen. unfold grade_multiple_choice_exam.
  assert (E : combine exam (user_answers ++ extra) = combine exam user_answers).
  { revert user_answers Hlen.
    induction exam as [|q exam IH]; intros [|a l] H; simpl in *;
      try reflexivity; try discriminate.
    f_equal. apply IH. lia. }
  now rewrite E.
Qed.

Lemma grade_ignores_extra_answers_witness :
  let exam := [ {| question := lit "q1"; options := [lit "a"; lit "b"];
                   answer := lit "a" |} ] in
  grade_multiple_choice_exam exam ([lit "b"] ++ [lit "a"; lit "a"])
  = grade_multiple_choice_exam exam [lit "b"].
Proof.
  intros exam. apply (@grade_ignores_extra_answers exam [lit "b"]). reflexivity.
Defined.

(** ** Question generation, continued *)

Lemma mem_false_iff (x : str) (l : list str) : mem x l = false <-> ~ In x l.
Proof.
  unfold mem. split.
  - intros H Hin. assert (E : existsb (str_eqb x) l = true).
    { apply existsb_exists. exists x. split; [exact Hin | apply str_eqb_refl]. }
    congruence.
  - intros H. destruct (existsb (str_eqb x) l) eqn:E; [|reflexivity].
    apply existsb_exists in E as (y & Hy & Hxy).
    apply str_eqb_eq in Hxy. subst y. contradiction.
Qed.

Lemma valid_question (l : lang) (question : str) (used : list str) :
  match l with
  | en => valid_en question used
  | es => valid_es question used
  end = true ->
  ~ In question used
  /\ 10 < len question < 200
  /\ has_char "?"%char question || has_char inverted_question question = true.
Proof.
  destruct l; unfold valid_es, valid_en; intros H;
    repeat (apply andb_true_iff in H as [H ?]);
    repeat match goal with
           | E : negb _ = true |- _ => apply negb_true_iff in E
           | E : (_ <? _) = true |- _ => apply Z.ltb_lt in E
           end.
  - repeat split; try lia; [now apply mem_false_iff|].
    match goal with
    | E : _ || _ = true |- _ => apply orb_true_iff in E as [E|E]; rewrite E
    end; auto using orb_true_r.
  - repeat split; try lia; [now apply mem_false_iff|].
    match goal with
    | E : has_char "?"%char question = true |- _ => now rewrite E
    end.
Qed.

Lemma accept_keeps (model : str) (l : lang) (result : list str) :
  forall questions used,
    accepted model questions used ->
    accepted model (fst (accept model l result questions used))
                   (snd (accept model l result questions used)).
Proof.
  induction result as [|r result IH]; intros questions used Hacc; [exact Hacc|].
  cbn [accept].
  destruct (match l with
            | en => valid_en (strip r) used
            | es => valid_es (strip r) used
            end) eqn:Ev; [|now apply IH].
  apply valid_question in Ev as (Hnew & Hlen & Hmark).
  destruct Hacc as (Hnd & Hused & Hok).
  apply IH. repeat split.
  - rewrite map_app. cbn [map q_question].
    apply NoDup_app; [exact Hnd | repeat constructor; intros [] | ].
    intros x Hx [<-|[]]. apply in_map_iff in Hx as (q & Hq & Hin).
    apply Hnew. rewrite <- Hq. now apply Hused.
  - intros q Hin. apply in_app_or in Hin as [Hin|[<-|[]]].
    + right. now apply Hused.
    + now left.
  - apply Forall_app. split; [exact Hok|].
    constructor; [|constructor]. unfold question_ok. cbn [q_question q_type q_model].
    repeat split; auto; lia.
Qed.

Lemma sentence_loop_keeps (model : str) (p : Pipeline) (num_questions : Z)
    (sentences : list str) :
  forall questions used,
    accepted model questions used ->
    exists used',
      accepted model
        (sentence_loop model p num_questions sentences questions used) used'.
Proof.
  induction sentences as [|sent rest IH]; intros questions used Hacc;
    cbn [sentence_loop]; [now exists used|].
  destruct (len (strip sent) <? 30); [now apply IH|].
  destruct (num_questions <=? len questions); [now exists used|].
  destruct (startswith model (lit "mrm8488")); cbv beta iota.
  - destruct (p _) as [result|]; [|now apply IH].
    pose proof (@accept_keeps model es result questions used Hacc) as Ha.
    destruct (accept model es result questions used) as [questions' used'].
    now apply IH in Ha.
  - destruct (p _) as [result|]; [|now apply IH].
    pose proof (@accept_keeps model en result questions used Hacc) as Ha.
    destruct (accept model en result questions used) as [questions' used'].
    now apply IH in Ha.
Qed.

Lemma generated_questions_valid
    (self : QuestionGenerator.QuestionGenerator) (text : str) (num_questions : Z)
    (qs : list Question) :
  generate_questions_from_text self text num_questions = Ok qs ->
  Forall (question_ok (model_name self)) qs.
Proof.
  unfold generate_questions_from_text. intros H.
  assert (Hloop : exists p,
             qs = sentence_loop (model_name self) p num_questions
                    (split_sentences text) [] []).
  { destruct (pipeline self) as [p|]; [|destruct (load_model self) as [p|]];
      cbn [bind] in H; try discriminate H; exists p; congruence. }
  destruct Hloop as [p ->].
  destruct (@sentence_loop_keeps (model_name self) p num_questions
              (split_sentences text) [] []) as (used' & _ & _ & Hok); [|exact Hok].
  repeat split; [constructor | intros q [] | constructor].
Qed.

(** X4.  The questions handed back for one text are pairwise different, and
    each one has between 11 and 199 characters, a question mark (either
    kind), the type [QG] and the name of the generator's model. *)
Theorem generated_questions_distinct_and_valid
    (self : QuestionGenerator.QuestionGenerator) (text : str) (num_questions : Z)
    (qs : list Question) :
  generate_questions_from_text self text num_questions = Ok qs ->
  NoDup (map q_question qs) /\ Forall (question_ok (model_name self)) qs.
Proof.
  unfold generate_questions_from_text. intros H.
  assert (Hloop : exists p,
             qs = sentence_loop (model_name self) p num_questions
                    (split_sentences text) [] []).
  { destruct (pipeline self) as [p|]; [|destruct (load_model self) as [p|]];
      cbn [bind] in H; try discriminate H; exists p; congruence. }
  destruct Hloop as [p ->].
  destruct (@sentence_loop_keeps (model_name self) p num_questions
              (split_sentences text) [] []) as (used' & Hnd & _ & Hok).
  - repeat split; [constructor | intros q [] | constructor].
  - now split.
Qed.

Lemma generated_questions_distinct_and_valid_witness :
  exists qs,
    generate_questions_from_text (answering (three_answers ++ three_answers))
      one_sentence 5 = Ok qs
    /\ List.length qs = 3%nat
    /\ NoDup (map q_question qs) /\ Forall (question_ok spanish_model) qs.
Proof.
  eexists. split; [vm_compute; reflexivity|]. split; [reflexivity|].
  apply (@generated_questions_distinct_and_valid
           (answering (three_answers ++ three_answers)) one_sentence 5).
  vm_compute. reflexivity.
Defined.


(** The limit of the monitor is the product that Python computes in
    binary64 from 3.5, 1024 and 0.9; it is below 3225.6. *)
Lemma limit_mb_is_the_product :
  float_to_Q (0x1.cp+1 * 0x1p+10 * 0x1.ccccccccccccdp-1)%float = Some limit_mb
  /\ Qlt limit_mb (32256 # 10).
Proof. split; vm_compute; reflexivity. Qed.

(** On a machine whose memory can be read, the reads of the monitor all
    succeed: the check of the limit answers, a cleanup returns, and the
    wrapper hands back what the call returned. *)
Lemma check_memory_limit_readable (os : psutil) (mi : MemoryInfo) :
  get_memory_usage os = Ok mi -> exists ok, check_memory_limit os = Ok ok.
Proof.
  intros H. unfold check_memory_limit. rewrite H. cbn [bind].
  destruct (Qgtb (process_memory_mb mi) limit_mb); [now eexists|].
  destruct (Qgtb (system_memory_percent mi) 90); now eexists.
Qed.

Lemma cleanup_memory_readable (os : psutil) (cuda : bool) (mi : MemoryInfo) :
  get_memory_usage os = Ok mi ->
  exists reclaimed, cleanup_memory os cuda false = Ok reclaimed.
Proof.
  intros H. unfold cleanup_memory.
  destruct (@check_memory_limit_readable os mi H) as [ok ->]. cbn [bind].
  destruct ok; cbn [negb]; [now eexists|]. rewrite H. cbn [bind]. now eexists.
Qed.

Lemma after_call_readable (os : psutil) (cuda : bool) (mi : MemoryInfo) :
  get_memory_usage os = Ok mi ->
  exists reclaimed, after_call os cuda = Ok reclaimed.
Proof.
  intros H. unfold after_call. rewrite H. cbn [bind].
  destruct (@check_memory_limit_readable os mi H) as [ok ->]. cbn [bind].
  destruct ok; [now eexists|]. exact (@cleanup_memory_readable os cuda mi H).
Qed.




(** ** Exam builder, continued *)

Lemma remove_at_perm {A : Type} (l : list A) :
  forall i x, nth_error l i = Some x -> Permutation (x :: Random.remove_at i l) l.
Proof.
  induction l as [|y l IH]; intros [|i] x H; simpl in *; try discriminate.
  - injection H as ->. apply Permutation_refl.
  - destruct l as [|z l']; [now destruct i|].
    change (Permutation (x :: y :: Random.remove_at i (z :: l')) (y :: z :: l')).
    eapply perm_trans; [apply perm_swap|]. apply perm_skip. now apply IH.
Qed.

Lemma pick_perm {A : Type} (k : nat) :
  forall (pool : list A) (r : Random.source),
    k = List.length pool -> Permutation (fst (Random.pick k pool r)) pool.
Proof.
  induction k as [|k IH]; intros pool r Hk.
  - destruct pool; [apply perm_nil | discriminate].
  - cbn [Random.pick].
    pose proof (@draw_in_range r (List.length pool)) as Hd.
    destruct (Random.draw r (List.length pool)) as [i r'].
    cbn [fst] in Hd.
    destruct (nth_error pool i) as [x|] eqn:En.
    + specialize (IH (Random.remove_at i pool) r').
      rewrite (remove_at_length _ _ En), <- Hk in IH. specialize (IH eq_refl).
      destruct (Random.pick k (Random.remove_at i pool) r') as [xs r''].
      cbn [fst] in *.
      eapply perm_trans; [apply perm_skip, IH | now apply remove_at_perm].
    + apply nth_error_None in En. lia.
Qed.

Lemma shuffle_perm {A : Type} (x : list A) (r : Random.source) :
  Permutation (fst (Random.shuffle x r)) x.
Proof. now apply pick_perm. Qed.

Lemma item_loop_keeps (get_close_matches : str -> list str -> list str)
    (chunk_text : str) (num_questions num_options : Z) :
  1 <= num_options ->
  forall (questions : list Question) (st st' : exam_state),
    len (exam st) < num_questions ->
    exam_ok num_options st ->
    item_loop get_close_matches chunk_text num_questions num_options questions st
    = Ok st' ->
    len (exam st') <= num_questions /\ exam_ok num_options st'.
Proof.
  intros Hk. induction questions as [|q rest IH]; intros st st' Hlt Hok H;
    cbn [item_loop] in H.
  - injection H as <-. split; [lia | exact Hok].
  - destruct (mem (q_question q) (used_questions st)) eqn:Em; [now apply IH in H|].
    apply mem_false_iff in Em.
    set (correct := _extract_answer_from_question get_close_matches
                      (q_question q) chunk_text) in *.
    destruct (@generate_distractors_count correct chunk_text (num_options - 1) (rnd st))
      as (ds & r1 & Hg & Hl & _); [lia|].
    rewrite Hg in H. cbn [bind] in H.
    pose proof (shuffle_perm (ds ++ [correct]) r1) as Hperm.
    destruct (Random.shuffle (ds ++ [correct]) r1) as [opts r2].
    cbn [fst] in Hperm. cbn [exam] in H.
    set (item := {| question := q_question q; options := opts; answer := correct |}) in *.
    set (st1 := {| exam := exam st ++ [item];
                   used_questions := q_question q :: used_questions st;
                   rnd := r2 |}) in *.
    assert (Hlen1 : len (exam st ++ [item]) = len (exam st) + 1).
    { unfold len. rewrite length_app. simpl. lia. }
    assert (Hok1 : exam_ok num_options st1).
    { destruct Hok as (Hnd & Hused & Hitems). unfold exam_ok, st1. cbn [exam used_questions].
      repeat split.
      - rewrite map_app. cbn [map question item].
        apply NoDup_app; [exact Hnd | repeat constructor; intros [] |].
        intros x Hx [<-|[]]. apply in_map_iff in Hx as (it & Hq & Hin).
        apply Em. rewrite <- Hq. now apply Hused.
      - intros it Hin. apply in_app_or in Hin as [Hin|[<-|[]]].
        + right. now apply Hused.
        + now left.
      - apply Forall_app. split; [exact Hitems|].
        constructor; [|constructor]. unfold item_ok, item. cbn [answer options].
        split.
        + eapply Permutation_in; [apply Permutation_sym, Hperm|].
          apply in_or_app. right. now left.
        + unfold len. rewrite (Permutation_length Hperm), length_app.
          assert (0 <= len ds <= num_options - 1).
          { rewrite Hl. destruct (distractor_sentences correct chunk_text);
              unfold len; simpl List.length; lia. }
          unfold len in *. simpl List.length. lia. }
    destruct (num_questions <=? len (exam st ++ [item])) eqn:En.
    + injection H as <-. apply Z.leb_le in En. cbn [exam st1]. split; [lia | exact Hok1].
    + apply Z.leb_gt in En. apply IH in H; auto.
Qed.

Lemma chunk_idx_loop_keeps (get_close_matches : str -> list str -> list str)
    (self : QuestionGenerator.QuestionGenerator) (num_questions num_options : Z) :
  1 <= num_options ->
  forall (chunks : list str) (st st' : exam_state),
    len (exam st) <= Z.max 0 num_questions ->
    exam_ok num_options st ->
    chunk_idx_loop get_close_matches self num_questions num_options chunks st
    = Ok st' ->
    len (exam st') <= Z.max 0 num_questions /\ exam_ok num_options st'.
Proof.
  intros Hk. induction chunks as [|chunk_text rest IH]; intros st st' Hle Hok H;
    cbn [chunk_idx_loop] in H.
  - injection H as <-. now split.
  - destruct (len (exam st) <? num_questions) eqn:El.
    + apply Z.ltb_lt in El.
      destruct (generate_questions_from_text self chunk_text 1) as [qs| |];
        cbn [bind] in H; try discriminate H.
      destruct (item_loop get_close_matches chunk_text num_questions num_options qs st)
        as [st1| |] eqn:Ei; cbn [bind] in H; try discriminate H.
      destruct (@item_loop_keeps get_close_matches chunk_text num_questions
                  num_options Hk qs st st1 El Hok Ei) as [Hle1 Hok1].
      apply IH in H; auto. lia.
    + injection H as <-. now split.
Qed.

(** X6.  An exam that is built for at least one option per item has at most
    the number of items asked for, its questions are pairwise different,
    and every item can be answered: the recorded answer is among the
    options, of which there are between 1 and [num_options]. *)
Theorem exam_items_can_be_answered
    (get_close_matches : str -> list str -> list str) (fuel : nat) (os : psutil)
    (self : QuestionGenerator.QuestionGenerator) (text : str)
    (num_questions num_options : Z) (r : Random.source) (ex : list ExamItem) :
  1 <= num_options ->
  generate_multiple_choice_exam get_close_matches fuel os self text
    num_questions num_options r = Ok ex ->
  len ex <= Z.max 0 num_questions
  /\ NoDup (map question ex)
  /\ Forall (item_ok num_options) ex.
Proof.
  intros Hk H. unfold generate_multiple_choice_exam in H.
  destruct (create_text_chunks fuel os default text) as [chunks| |];
    cbn [bind] in H; try discriminate H.
  destruct (chunk_idx_loop get_close_matches self num_questions num_options chunks
              {| exam := []; used_questions := []; rnd := r |}) as [st| |] eqn:El;
    cbn [bind] in H; try discriminate H.
  injection H as <-.
  apply (@chunk_idx_loop_keeps get_close_matches self num_questions num_options Hk)
    in El as (Hle & Hnd & _ & Hitems).
  - auto.
  - unfold len; simpl; lia.
  - repeat split; [constructor | intros it [] | constructor].
Qed.

Lemma exam_items_can_be_answered_witness :
  exists ex,
    generate_multiple_choice_exam (fun _ _ => []) 10 (healthy (50 # 1))
      (answering three_answers) three_sentences 2 4 [1; 2; 3; 4; 5]%nat = Ok ex
    /\ List.length ex = 2%nat
    /\ len ex <= Z.max 0 2
    /\ NoDup (map question ex)
    /\ Forall (item_ok 4) ex.
Proof.
  eexists. split; [vm_compute; reflexivity|]. split; [reflexivity|].
  apply (@exam_items_can_be_answered (fun _ _ => []) 10 (healthy (50 # 1))
           (answering three_answers) three_sentences 2 4 [1; 2; 3; 4; 5]%nat);
    [lia | vm_compute; reflexivity].
Defined.

(** ** Memory monitor, continued *)

Lemma get_memory_usage_readable (os : psutil) (vm : svmem) (rss : Z) :
  Process os = Ok tt -> virtual_memory os = Ok vm -> memory_info_rss os = Ok rss ->
  get_memory_usage os
  = Ok {| process_memory_mb := inject_Z rss / 1024 / 1024;
          system_memory_percent := percent vm;
          system_available_mb := inject_Z (available vm) / 1024 / 1024;
          system_total_mb := inject_Z (MemoryOptimizer.total vm) / 1024 / 1024 |}.
Proof. intros HP HV HR. unfold get_memory_usage. now rewrite HP, HV, HR. Qed.

Lemma available_gb_below (a n : Z) :
  Qltb (inject_Z a / 1024 / 1024 / 1024) (inject_Z n) = (a <? n * 1073741824).
Proof.
  unfold Qltb. destruct (Qle_bool (inject_Z n) (inject_Z a / 1024 / 1024 / 1024)) eqn:E.
  - apply Qle_bool_iff in E. symmetry. apply Z.ltb_ge.
    unfold Qle, Qdiv, Qmult, Qinv, inject_Z in E; simpl in E. lia.
  - symmetry. apply Z.ltb_lt.
    destruct (Z_lt_le_dec a (n * 1073741824)) as [H|H]; [exact H|].
    assert (F : Qle_bool (inject_Z n) (inject_Z a / 1024 / 1024 / 1024) = true).
    { apply Qle_bool_iff. unfold Qle, Qdiv, Qmult, Qinv, inject_Z; simpl. lia. }
    congruence.
Qed.

(** X7.  On a machine whose memory can be read, the batch size for a base
    of at least 1 is never below 1 and never above the base: it is 1 with
    less than 1 GiB available, [max(1, base // 2)] with less than 2 GiB, and
    the base otherwise. *)
Theorem get_optimal_batch_size_bands (os : psutil) (vm : svmem) (rss base : Z) :
  Process os = Ok tt -> virtual_memory os = Ok vm -> memory_info_rss os = Ok rss ->
  1 <= base ->
  exists b,
    get_optimal_batch_size os base = Ok b
    /\ 1 <= b <= base
    /\ (available vm < 1073741824 -> b = 1)
    /\ (1073741824 <= available vm < 2147483648 -> b = Z.max 1 (base / 2))
    /\ (2147483648 <= available vm -> b = base).
Proof.
  intros HP HV HR Hb. unfold get_optimal_batch_size.
  rewrite (get_memory_usage_readable _ HP HV HR). cbn [bind system_available_mb].
  change 1%Q with (inject_Z 1). change 2%Q with (inject_Z 2).
  rewrite !available_gb_below.
  assert (Hhalf : base / 2 <= base) by (apply Z.div_le_upper_bound; lia).
  destruct (available vm <? 1 * 1073741824) eqn:E1.
  - apply Z.ltb_lt in E1. exists 1. repeat split; lia.
  - apply Z.ltb_ge in E1. destruct (available vm <? 2 * 1073741824) eqn:E2.
    + apply Z.ltb_lt in E2. exists (Z.max 1 (base / 2)). repeat split; lia.
    + apply Z.ltb_ge in E2. exists base. repeat split; lia.
Qed.

Lemma get_optimal_batch_size_bands_witness :
  exists b,
    get_optimal_batch_size (healthy (50 # 1)) 4 = Ok b
    /\ 1 <= b <= 4
    /\ (2147483648 < 1073741824 -> b = 1)
    /\ (1073741824 <= 2147483648 < 2147483648 -> b = Z.max 1 (4 / 2))
    /\ (2147483648 <= 2147483648 -> b = 4).
Proof.
  apply (@get_optimal_batch_size_bands (healthy (50 # 1))
           {| percent := 50 # 1; available := 2147483648; MemoryOptimizer.total := 4294967296 |}
           104857600 4); try reflexivity. lia.
Defined.

(** X8.  The chunk size has no floor.  For a base of at least 0 it lies
    between 0 and the base, and it is 0 exactly for the base 0 and for the
    base 1 when more than 80% of the memory is used. *)
Theorem get_optimal_chunk_size_can_be_zero (os : psutil) (vm : svmem)
    (rss document_length base : Z) :
  Process os = Ok tt -> virtual_memory os = Ok vm -> memory_info_rss os = Ok rss ->
  0 <= base ->
  exists size,
    get_optimal_chunk_size os document_length base = Ok size
    /\ 0 <= size <= base
    /\ (size = 0 <-> base = 0 \/ (base = 1 /\ ~ (percent vm <= 80)%Q)).
Proof.
  intros HP HV HR Hb. unfold get_optimal_chunk_size.
  rewrite (get_memory_usage_readable _ HP HV HR). cbn [bind system_memory_percent].
  unfold Qgtb.
  assert (Hhalf : 0 <= base / 2 <= base).
  { split; [apply Z.div_pos; lia | apply Z.div_le_upper_bound; lia]. }
  destruct (Qle_bool (percent vm) 80) eqn:E80; cbn [negb].
  - assert (H80 : (percent vm <= 80)%Q) by now apply Qle_bool_iff.
    assert (H90 : Qle_bool (percent vm) 90 = true).
    { apply Qle_bool_iff. eapply Qle_trans; [exact H80 | discriminate]. }
    rewrite H90. cbn [negb]. exists base.
    split; [reflexivity|]. split; [lia|]. split.
    + intros ->. now left.
    + intros [H|[_ H]]; [exact H | contradiction].
  - assert (H80 : ~ (percent vm <= 80)%Q).
    { intros H. apply Qle_bool_iff in H. congruence. }
    exists (base / 2).
    split; [reflexivity|]. split; [lia|]. split.
    + intros H0. destruct (Z.eq_dec base 0) as [->|Hn]; [now left|].
      right. split; [|exact H80].
      assert (base < 2); [|lia].
      destruct (Z_lt_le_dec base 2) as [H|H]; [exact H|].
      assert (1 <= base / 2) by (apply Z.div_le_lower_bound; lia). lia.
    + intros [->|[-> _]]; reflexivity.
Qed.

Lemma get_optimal_chunk_size_can_be_zero_witness :
  exists size,
    get_optimal_chunk_size (healthy (85 # 1)) 0 1 = Ok size
    /\ 0 <= size <= 1
    /\ (size = 0 <-> 1 = 0 \/ (1 = 1 /\ ~ (85 # 1 <= 80)%Q)).
Proof.
  apply (@get_optimal_chunk_size_can_be_zero (healthy (85 # 1))
           {| percent := 85 # 1; available := 2147483648; MemoryOptimizer.total := 4294967296 |}
           104857600 0 1); try reflexivity. lia.
Defined.

(** ** Words, blanks and trimming *)

Lemma split_ws_cons (c : ascii) (s : str) :
  split_ws (c :: s)
  = if isspace c then split_ws s
    else match s with
         | [] => [[c]]
         | d :: _ =>
             if isspace d then [c] :: split_ws s
             else match split_ws s with
                  | p :: ps => (c :: p) :: ps
                  | [] => [[c]]
                  end
         end.
Proof. reflexivity. Qed.

Lemma split_ws_visible_head (d : ascii) (s : str) :
  isspace d = false -> exists p ps, split_ws (d :: s) = (d :: p) :: ps.
Proof.
  intros Hd. rewrite split_ws_cons, Hd.
  destruct s as [|e s']; [now exists [], []|].
  destruct (isspace e); [now exists [], (split_ws (e :: s'))|].
  destruct (split_ws (e :: s')) as [|p ps]; [now exists [], [] | now exists p, ps].
Qed.

Lemma split_ws_words (s : str) : forallb is_word (split_ws s) = true.
Proof.
  induction s as [|c s IH]; [reflexivity|].
  rewrite split_ws_cons. destruct (isspace c) eqn:Ec; [exact IH|].
  destruct s as [|d s']; [cbn; now rewrite Ec|].
  destruct (isspace d) eqn:Ed.
  - cbn [forallb]. rewrite IH. cbn. now rewrite Ec.
  - destruct (@split_ws_visible_head d s' Ed) as (p & ps & E).
    rewrite E in *. cbn [forallb] in *.
    apply andb_true_iff in IH as [Hp Hps]. rewrite Hps, andb_true_r.
    cbn [is_word forallb] in *. now rewrite Ec.
Qed.

Lemma join_cons (sep x : str) (rest : list str) :
  rest <> [] -> join sep (x :: rest) = x ++ sep ++ join sep rest.
Proof. destruct rest; [contradiction | reflexivity]. Qed.

Lemma join_app_last (sep w : str) (ws : list str) :
  ws <> [] -> join sep (ws ++ [w]) = join sep ws ++ sep ++ w.
Proof.
  induction ws as [|x ws IH]; [contradiction|]. intros _.
  destruct ws as [|y ws']; [reflexivity|].
  change ((x :: y :: ws') ++ [w]) with (x :: ((y :: ws') ++ [w])).
  rewrite !join_cons by (try discriminate; now destruct ws').
  rewrite IH by discriminate. now rewrite <- !app_assoc.
Qed.

Lemma rev_join (sep : str) (ws : list str) :
  rev (join sep ws) = join (rev sep) (map (@rev ascii) (rev ws)).
Proof.
  induction ws as [|x ws IH]; [reflexivity|].
  destruct ws as [|y ws']; [reflexivity|].
  change (rev (x :: y :: ws')) with (rev (y :: ws') ++ [x]).
  rewrite map_app. cbn [map]. rewrite join_app_last.
  - rewrite join_cons by discriminate.
    now rewrite !rev_app_distr, IH, <- app_assoc.
  - intros E. apply (f_equal (@List.length str)) in E.
    rewrite length_map, length_rev in E. discriminate E.
Qed.

Lemma starts_visible_join (sep : str) (ws : list str) :
  forallb is_word ws = true -> starts_visible (join sep ws) = true.
Proof.
  destruct ws as [|w rest]; [reflexivity|]. cbn [forallb]. intros H.
  apply andb_true_iff in H as [Hw _].
  destruct w as [|c w']; [discriminate|].
  cbn [is_word forallb] in Hw. apply andb_true_iff in Hw as [Hc _].
  now destruct rest.
Qed.

Lemma is_word_rev (w : str) : is_word w = true -> is_word (rev w) = true.
Proof.
  intros H. destruct w as [|c w']; [discriminate|].
  cbn [is_word] in H.
  assert (Hall : forallb (fun c => negb (isspace c)) (rev (c :: w')) = true).
  { apply forallb_forall. intros x Hx. apply in_rev in Hx.
    rewrite forallb_forall in H. now apply H. }
  destruct (rev (c :: w')) eqn:E; [|exact Hall].
  apply (f_equal (@List.length ascii)) in E. rewrite length_rev in E. discriminate.
Qed.

Lemma ends_visible_join (sep : str) (ws : list str) :
  forallb is_word ws = true -> starts_visible (rev (join sep ws)) = true.
Proof.
  intros H. rewrite rev_join. apply starts_visible_join.
  apply forallb_forall. intros x Hx.
  apply in_map_iff in Hx as (w & <- & Hw). apply in_rev in Hw.
  rewrite forallb_forall in H. now apply is_word_rev, H.
Qed.

Lemma lstrip_visible (s : str) : starts_visible s = true -> lstrip s = s.
Proof.
  destruct s as [|c s]; [reflexivity|]. cbn. intros H.
  apply negb_true_iff in H. now rewrite H.
Qed.

Lemma rstrip_visible (s : str) : starts_visible (rev s) = true -> rstrip s = s.
Proof.
  intros H. unfold rstrip. now rewrite lstrip_visible, rev_involutive.
Qed.

Lemma rstrip_blank (s : str) : rstrip (s ++ [" "%char]) = rstrip s.
Proof. unfold rstrip. now rewrite rev_app_distr. Qed.

Lemma strip_join_words (ws : list str) :
  forallb is_word ws = true ->
  strip (join [" "%char] ws) = join [" "%char] ws.
Proof.
  intros H. unfold strip.
  rewrite lstrip_visible by now apply starts_visible_join.
  apply rstrip_visible. now apply ends_visible_join.
Qed.

(** The blanks that [collapse_ws] leaves around the words. *)
Lemma collapse_ws_words (s : str) :
  exists trail,
    (trail = [] \/ (trail = [" "%char] /\ split_ws s <> []))
    /\ collapse_ws s
       = match s with
         | [] => []
         | c :: _ => if isspace c then [" "%char] else []
         end ++ join [" "%char] (split_ws s) ++ trail.
Proof.
  induction s as [|c s (trail & Ht & IH)]; [exists []; now split; [left|]|].
  rewrite collapse_ws_cons, split_ws_cons.
  destruct (isspace c) eqn:Ec.
  - destruct s as [|d s']; [exists []; split; [now left | reflexivity]|].
    destruct (isspace d) eqn:Ed.
    + exists trail. split; [exact Ht|]. rewrite IH, ?Ed. reflexivity.
    + exists trail. split; [exact Ht|]. rewrite IH, ?Ed. reflexivity.
  - destruct s as [|d s']; [exists []; split; [now left | reflexivity]|].
    destruct (isspace d) eqn:Ed.
    + rewrite IH, ?Ed. cbn [app].
      destruct (split_ws (d :: s')) as [|p ps] eqn:Es.
      * exists [" "%char]. split; [right; split; [reflexivity | discriminate]|].
        destruct Ht as [->|[_ Hne]]; [reflexivity | contradiction].
      * exists trail. split.
        { destruct Ht as [->|[-> _]]; [now left | right; split; [reflexivity | discriminate]]. }
        reflexivity.
    + destruct (@split_ws_visible_head d s' Ed) as (p & ps & Es).
      rewrite IH, ?Ed, Es in *. exists trail. split.
      { destruct Ht as [->|[-> _]]; [now left | right; split; [reflexivity | discriminate]]. }
      cbn [app]. destruct ps; reflexivity.
Qed.

Lemma join_words_nil (ws : list str) :
  forallb is_word ws = true -> join [" "%char] ws = [] -> ws = [].
Proof.
  destruct ws as [|w rest]; [reflexivity|]. cbn [forallb]. intros H E.
  apply andb_true_iff in H as [Hw _]. destruct w; [discriminate|].
  destruct rest; discriminate E.
Qed.

(** Collapsing the spaces and trimming leaves the words, one blank apart. *)
Lemma strip_collapse_ws (s : str) :
  strip (collapse_ws s) = join [" "%char] (split_ws s).
Proof.
  destruct (collapse_ws_words s) as (trail & Ht & E). rewrite E.
  pose proof (split_ws_words s) as Hw.
  set (J := join [" "%char] (split_ws s)) in *.
  assert (Hlead : forall x, strip ((match s with
                                    | [] => []
                                    | c :: _ => if isspace c then [" "%char] else []
                                    end) ++ x) = strip x).
  { intros x. destruct s as [|c s']; [reflexivity|].
    destruct (isspace c); reflexivity. }
  rewrite Hlead.
  destruct Ht as [->|[-> Hne]].
  - rewrite app_nil_r. now apply strip_join_words.
  - unfold strip. rewrite lstrip_visible.
    + rewrite rstrip_blank. apply rstrip_visible. now apply ends_visible_join.
    + pose proof (starts_visible_join [" "%char] _ Hw) as Hs. fold J in Hs.
      destruct J as [|c J'] eqn:EJ; [|exact Hs].
      apply join_words_nil in EJ; [contradiction | exact Hw].
Qed.

Lemma split_ws_word_app (w t : str) :
  is_word w = true ->
  match t with [] => true | c :: _ => isspace c end = true ->
  split_ws (w ++ t) = w :: split_ws t.
Proof.
  intros Hw Ht. induction w as [|c w IH]; [discriminate|].
  cbn [is_word forallb] in Hw. apply andb_true_iff in Hw as [Hc Hw].
  apply negb_true_iff in Hc.
  change ((c :: w) ++ t) with (c :: (w ++ t)). rewrite split_ws_cons, Hc.
  destruct w as [|d w'].
  - cbn [app]. destruct t as [|e t']; [reflexivity|]. now rewrite Ht.
  - cbn [app] in *. cbn [forallb] in Hw.
    apply andb_true_iff in Hw as [Hd Hw']. apply negb_true_iff in Hd as Hd'.
    rewrite Hd'. rewrite IH; [reflexivity|].
    cbn [is_word forallb]. now rewrite Hd, Hw'.
Qed.

Lemma split_ws_join (ws : list str) :
  forallb is_word ws = true -> split_ws (join [" "%char] ws) = ws.
Proof.
  induction ws as [|w rest IH]; [reflexivity|]. cbn [forallb]. intros H.
  apply andb_true_iff in H as [Hw Hrest].
  destruct rest as [|x rest'].
  - cbn [join]. rewrite <- (app_nil_r w) at 1.
    now rewrite split_ws_word_app.
  - rewrite join_cons by discriminate.
    rewrite split_ws_word_app; [|exact Hw | reflexivity].
    f_equal. change ([" "%char] ++ join [" "%char] (x :: rest'))
      with (" "%char :: join [" "%char] (x :: rest')).
    rewrite split_ws_cons. cbn [isspace]. now apply IH.
Qed.

Lemma clean_text_words (text : str) :
  _clean_text text
  = let line := join [" "%char]
                  (split_ws (filter (fun c => negb (is_control c)) text)) in
    if 10 <? len line then line else [].
Proof. rewrite clean_text_one_line. cbv zeta. now rewrite strip_collapse_ws. Qed.

(** X9.  A cleaned page is the words of the page (what is left between the
    spaces once the control characters are gone) with one blank between
    them, when that has more than 10 characters, and nothing otherwise; so
    splitting the cleaned page gives the same words back. *)
Theorem clean_text_is_the_words_of_the_page (text : str) :
  let words := split_ws (filter (fun c => negb (is_control c)) text) in
  _clean_text text
  = (if 10 <? len (join [" "%char] words) then join [" "%char] words else [])
  /\ split_ws (_clean_text text)
     = (if 10 <? len (join [" "%char] words) then words else []).
Proof.
  intros words. rewrite clean_text_words. cbv zeta. fold words.
  split; [reflexivity|].
  destruct (10 <? len (join [" "%char] words)); [|reflexivity].
  apply split_ws_join, split_ws_words.
Qed.

Lemma filter_all {A : Type} (f : A -> bool) (l : list A) :
  forallb f l = true -> filter f l = l.
Proof.
  induction l as [|x l IH]; [reflexivity|]. cbn [forallb filter]. intros H.
  apply andb_true_iff in H as [Hx Hl]. now rewrite Hx, IH.
Qed.

Lemma join_words_no_control (ws : list str) :
  forallb (forallb (fun c => negb (is_control c))) ws = true ->
  forallb (fun c => negb (is_control c)) (join [" "%char] ws) = true.
Proof.
  induction ws as [|w rest IH]; [reflexivity|]. cbn [forallb]. intros H.
  apply andb_true_iff in H as [Hw Hrest].
  destruct rest as [|x rest']; [exact Hw|].
  rewrite join_cons by discriminate. rewrite !forallb_app, Hw.
  now rewrite (IH Hrest).
Qed.

Lemma split_ws_keeps (P : ascii -> bool) (s : str) :
  forallb P s = true -> forallb (forallb P) (split_ws s) = true.
Proof.
  induction s as [|c s IH]; [reflexivity|]. cbn [forallb]. intros H.
  apply andb_true_iff in H as [Hc Hs]. specialize (IH Hs).
  rewrite split_ws_cons. destruct (isspace c); [exact IH|].
  destruct s as [|d s']; [cbn; now rewrite Hc|].
  destruct (isspace d).
  - cbn [forallb]. now rewrite Hc, IH.
  - destruct (split_ws (d :: s')) as [|p ps]; [cbn; now rewrite Hc|].
    cbn [forallb] in *. now rewrite Hc.
Qed.

(** X10.  Cleaning is idempotent: a page that has been cleaned is left as it
    is by a second cleaning. *)
Theorem clean_text_idempotent (text : str) :
  _clean_text (_clean_text text) = _clean_text text.
Proof.
  rewrite (clean_text_words text). cbv zeta.
  set (f := filter (fun c => negb (is_control c)) text).
  set (line := join [" "%char] (split_ws f)).
  destruct (10 <? len line) eqn:E; [|reflexivity].
  rewrite clean_text_words. cbv zeta.
  assert (Hf : filter (fun c => negb (is_control c)) line = line).
  { apply filter_all, join_words_no_control, split_ws_keeps.
    apply forallb_forall. intros c Hc. now apply filter_In in Hc. }
  assert (Hs : split_ws line = split_ws f)
    by apply split_ws_join, split_ws_words.
  rewrite Hf, Hs. fold line. now rewrite E.
Qed.

(** ** Chunker, continued *)

Lemma forallb_sublist {A : Type} (P : A -> bool) (l : list A) (i n : nat) :
  forallb P l = true -> forallb P (firstn n (skipn i l)) = true.
Proof.
  intros H. rewrite <- (firstn_skipn i l), forallb_app in H.
  apply andb_true_iff in H as [_ H].
  rewrite <- (firstn_skipn n (skipn i l)), forallb_app in H.
  now apply andb_true_iff in H as [H _].
Qed.

Lemma slice_inside {A : Type} (l : list A) (a b : Z) :
  0 <= a <= b -> b <= len l ->
  slice l a b = firstn (Z.to_nat (b - a)) (skipn (Z.to_nat a) l).
Proof.
  intros Ha Hb. unfold slice, slice_index.
  assert (Ea : (a <? 0) = false) by (apply Z.ltb_ge; lia).
  assert (Eb : (b <? 0) = false) by (apply Z.ltb_ge; lia).
  rewrite Ea, Eb, !Z.min_l by lia. reflexivity.
Qed.

Section ChunkLoopAnySign.

Variable words : list str.
Variables optimal_chunk_size overlap : Z.

(** As soon as the window is larger than the overlap, of whatever sign,
    [start_idx] grows at every turn: the loop returns, with at most one
    window per word. *)
Lemma chunk_loop_returns :
  overlap < optimal_chunk_size ->
  forall (fuel : nat) (start : Z),
    (1 <= fuel)%nat -> len words - start < Z.of_nat fuel ->
    exists ws,
      chunk_loop fuel words optimal_chunk_size overlap start = Ok ws
      /\ len ws <= Z.max 0 (len words - start).
Proof.
  intros Hov. induction fuel as [|fuel IH]; intros start Hf Hm; [lia|].
  cbn [chunk_loop].
  destruct (start <? len words) eqn:Hlt.
  2:{ exists []. split; [reflexivity | unfold len at 1; simpl; lia]. }
  apply Z.ltb_lt in Hlt.
  destruct (len words <=? Z.min (start + optimal_chunk_size) (len words)) eqn:Hend.
  - eexists. split; [reflexivity|]. unfold len at 1. simpl. lia.
  - apply Z.leb_gt in Hend.
    destruct (IH (Z.min (start + optimal_chunk_size) (len words) - overlap))
      as (rest & Hrest & Hlen); try lia.
    rewrite Hrest. cbn [bind]. eexists. split; [reflexivity|].
    unfold len at 1. cbn [List.length]. unfold len at 1 in Hlen. lia.
Qed.

(** A text that fits in the window is one window, whatever the overlap. *)
Lemma chunk_loop_single :
  0 < len words <= optimal_chunk_size ->
  forall fuel : nat,
    chunk_loop (S fuel) words optimal_chunk_size overlap 0
    = Ok [ {| start_idx := 0; end_idx := len words;
              yielded :=
                if 50 <? len (strip (join [" "%char] words))
                then Some (join [" "%char] words) else None |} ].
Proof.
  intros H fuel. cbn [chunk_loop].
  assert (E1 : (0 <? len words) = true) by (apply Z.ltb_lt; lia).
  rewrite E1, Z.add_0_l, Z.min_r by lia.
  assert (E2 : (len words <=? len words) = true) by (apply Z.leb_le; lia).
  rewrite E2.
  assert (Es : slice words 0 (len words) = words).
  { rewrite slice_inside by lia. rewrite Z.sub_0_r. unfold len.
    rewrite Nat2Z.id. cbn [Z.to_nat skipn]. apply firstn_all. }
  now rewrite Es.
Qed.

End ChunkLoopAnySign.

(** X11.  When the chunker returns.  With [W] words, window size [size]
    and overlap [O], [create_text_chunks] returns, with at most [W] chunks,
    if the text has no word, or fits in one window, or [O < size]; in the
    remaining case ([0 < W], [size < W] and [size <= O]) it never returns. *)
Theorem chunker_returns_exactly_when (os : psutil)
    (self : PDFProcessor.PDFProcessor) (text : str) (size : Z) :
  get_optimal_chunk_size os (len text) (chunk_size self) = Ok size ->
  let W := len (split_ws text) in
  (W = 0 \/ W <= size \/ PDFProcessor.overlap self < size ->
   exists chunks,
     create_text_chunks (S (List.length (split_ws text))) os self text = Ok chunks
     /\ len chunks <= W)
  /\ (0 < W /\ size < W /\ size <= PDFProcessor.overlap self ->
      forall fuel, create_text_chunks fuel os self text = OutOfFuel).
Proof.
  intros Hsize W. unfold create_text_chunks, chunk_windows. rewrite Hsize. cbn [bind].
  assert (Hy : forall ws : list Window, len (yields ws) <= len ws).
  { intros ws. unfold len. induction ws as [|w ws IH]; [simpl; lia|].
    unfold yields in *. cbn [flat_map]. rewrite length_app.
    destruct (yielded w); simpl List.length in *; lia. }
  split.
  - intros H.
    assert (Hcases : W = 0 \/ 0 < W <= size \/ PDFProcessor.overlap self < size)
      by (unfold W, len in *; lia).
    clear H. destruct Hcases as [H|[H|H]].
    + exists []. split; [|unfold len; simpl; lia].
      cbn [chunk_loop]. fold W. now rewrite H.
    + rewrite chunk_loop_single by exact H. cbn [bind]. eexists.
      split; [reflexivity|]. etransitivity; [apply Hy|]. unfold len at 1. simpl. lia.
    + destruct (@chunk_loop_returns (split_ws text) size (PDFProcessor.overlap self) H
                  (S (List.length (split_ws text))) 0) as (ws & Hws & Hlen);
        [lia | unfold len; lia |].
      rewrite Hws. cbn [bind]. eexists. split; [reflexivity|].
      etransitivity; [apply Hy|]. fold W in Hlen. unfold W, len in *. lia.
  - intros (H1 & H2 & H3) fuel.
    rewrite chunk_loop_stuck; [reflexivity | exact H3 | exact H1 | fold W; lia].
Qed.

Lemma chunker_returns_exactly_when_witness :
  let W := len (split_ws (words_text 51)) in
  (W = 0 \/ W <= 50 \/ 50 < 50 ->
   exists chunks,
     create_text_chunks (S (List.length (split_ws (words_text 51))))
       (healthy (85 # 1)) {| chunk_size := 100; overlap := 50 |} (words_text 51)
     = Ok chunks
     /\ len chunks <= W)
  /\ (0 < W /\ 50 < W /\ 50 <= 50 ->
      forall fuel,
        create_text_chunks fuel (healthy (85 # 1))
          {| chunk_size := 100; overlap := 50 |} (words_text 51) = OutOfFuel).
Proof.
  apply (@chunker_returns_exactly_when (healthy (85 # 1))
           {| chunk_size := 100; overlap := 50 |} (words_text 51) 50).
  reflexivity.
Defined.

Lemma window_chunk_is_run (words : list str) (size : Z) (w : Window) (chunk : str) :
  forallb is_word words = true ->
  window_ok words size w -> yielded w = Some chunk ->
  50 < len chunk /\ run_of_words words size chunk /\ strip chunk = chunk.
Proof.
  intros Hwords (Hb & He & Hm & Hy) Hc. cbv zeta in Hy.
  rewrite slice_inside in Hy by lia.
  set (n := Z.to_nat (end_idx w - start_idx w)) in *.
  set (i := Z.to_nat (start_idx w)) in *.
  assert (Hs : strip (join [" "%char] (firstn n (skipn i words)))
               = join [" "%char] (firstn n (skipn i words)))
    by (apply strip_join_words; now apply forallb_sublist).
  rewrite Hs, Hc in Hy.
  destruct (50 <? len (join [" "%char] (firstn n (skipn i words)))) eqn:E;
    [|discriminate Hy].
  injection Hy as ->. apply Z.ltb_lt in E.
  repeat split; [exact E | | exact Hs].
  exists i, n. unfold n. repeat split; lia.
Qed.

(** X12.  With [0 <= O < size] every chunk that is yielded is a run of
    between 1 and [size] consecutive words of the text with one blank
    between them, has more than 50 characters, and neither begins nor ends
    with a space. *)
Theorem chunks_are_runs_of_words (os : psutil) (self : PDFProcessor.PDFProcessor)
    (text : str) (size : Z) :
  get_optimal_chunk_size os (len text) (chunk_size self) = Ok size ->
  0 <= PDFProcessor.overlap self < size ->
  exists chunks,
    create_text_chunks (S (List.length (split_ws text))) os self text = Ok chunks
    /\ Forall (fun chunk => 50 < len chunk
                            /\ run_of_words (split_ws text) size chunk
                            /\ strip chunk = chunk) chunks.
Proof.
  intros Hsize Hov.
  destruct (@chunk_loop_from (split_ws text) size (PDFProcessor.overlap self) Hov
              (S (List.length (split_ws text))) 0)
    as (ws & Hws & _ & _ & Hok & _); [lia | lia | unfold len; lia |].
  exists (yields ws). split.
  - unfold create_text_chunks, chunk_windows. rewrite Hsize. cbn [bind].
    now rewrite Hws.
  - clear Hws. induction Hok as [|w ws Hw Hok IH]; [constructor|].
    unfold yields in *. cbn [flat_map].
    destruct (yielded w) as [chunk|] eqn:E; [|exact IH].
    constructor; [|exact IH].
    eapply window_chunk_is_run; eauto using split_ws_words.
Qed.

Lemma chunks_are_runs_of_words_witness :
  exists chunks,
    create_text_chunks (S (List.length (split_ws (words_text 60))))
      (healthy (50 # 1)) default (words_text 60) = Ok chunks
    /\ Forall (fun chunk => 50 < len chunk
                            /\ run_of_words (split_ws (words_text 60)) 512 chunk
                            /\ strip chunk = chunk) chunks.
Proof.
  apply (@chunks_are_runs_of_words (healthy (50 # 1)) default (words_text 60) 512).
  - reflexivity.
  - simpl. lia.
Defined.

(** X13.  A text with at least one word that fits in one window gives, for
    any overlap, exactly one chunk, its words with one blank between them,
    when that has more than 50 characters, and no chunk otherwise. *)
Theorem short_text_is_one_chunk (os : psutil) (self : PDFProcessor.PDFProcessor)
    (text : str) (size : Z) (fuel : nat) :
  get_optimal_chunk_size os (len text) (chunk_size self) = Ok size ->
  0 < len (split_ws text) <= size ->
  create_text_chunks (S fuel) os self text
  = Ok (if 50 <? len (join [" "%char] (split_ws text))
        then [join [" "%char] (split_ws text)] else []).
Proof.
  intros Hsize H. unfold create_text_chunks, chunk_windows.
  rewrite Hsize. cbn [bind]. rewrite chunk_loop_single by exact H. cbn [bind].
  rewrite strip_join_words by apply split_ws_words.
  unfold yields. cbn [flat_map yielded].
  now destruct (50 <? len (join [" "%char] (split_ws text))).
Qed.

Lemma short_text_is_one_chunk_witness :
  create_text_chunks 1 (healthy (50 # 1)) default (words_text 20)
  = Ok (if 50 <? len (join [" "%char] (split_ws (words_text 20)))
        then [join [" "%char] (split_ws (words_text 20))] else []).
Proof.
  apply (@short_text_is_one_chunk (healthy (50 # 1)) default (words_text 20) 512 0).
  - reflexivity.
  - vm_compute. split; [reflexivity | discriminate].
Defined.

(** ** Document extractor *)










Lemma page_loop_acc (os : psutil) (cuda : bool) (mi : MemoryInfo)
    (pages : list str) :
  get_memory_usage os = Ok mi ->
  forall (page_num : Z) (text_content : list str) (cleanups : list Z),
    page_loop os cuda page_num pages text_content cleanups
    = Ok (text_content
          ++ map _clean_text
               (filter (fun p => match strip p with [] => false | _ => true end)
                  pages),
          cleanups
          ++ filter (fun k => k mod 10 =? 0)
               (map (fun i => page_num + Z.of_nat i) (seq 0 (List.length pages)))).
Proof.
  intros Hos. destruct (@cleanup_memory_readable os cuda mi Hos) as [reclaimed Hc].
  induction pages as [|p rest IH]; intros page_num tc cl.
  - cbn. now rewrite !app_nil_r.
  - cbn [page_loop List.length seq map filter]. rewrite Z.add_0_r.
    rewrite <- seq_shift, map_map.
    rewrite (map_ext (fun i => page_num + Z.of_nat (S i))
                     (fun i => page_num + 1 + Z.of_nat i)) by (intros i; lia).
    destruct (page_num mod 10 =? 0).
    + rewrite Hc. cbn [bind]. rewrite IH. do 2 f_equal.
      * destruct (strip p); cbn [map]; [reflexivity | now rewrite <- app_assoc].
      * now rewrite <- app_assoc.
    + rewrite IH. do 2 f_equal.
      destruct (strip p); cbn [map]; [reflexivity | now rewrite <- app_assoc].
Qed.

Lemma page_loop_blank (pages : list str) :
  Forall (fun p => strip p = []) pages ->
  filter (fun p => match strip p with [] => false | _ => true end) pages = [].
Proof.
  induction 1 as [|p rest Hp _ IH]; [reflexivity|].
  cbn [filter]. now rewrite Hp.
Qed.

(** What extraction returns for a file that opens, on a machine whose
    memory can be read. *)
Lemma extract_text_from_pdf_opened (os : psutil) (cuda : bool) (mi : MemoryInfo)
    (f : PdfFile) (doc : Document) :
  get_memory_usage os = Ok mi ->
  file_exists f = true -> opened f = Some doc ->
  extract_text_from_pdf os cuda f
  = Ok (inr (join [newline; newline]
               (map _clean_text
                  (filter (fun p => match strip p with [] => false | _ => true end)
                     (pages doc))),
             filter (fun k => k mod 10 =? 0)
               (map (fun i => 1 + Z.of_nat i) (seq 0 (List.length (pages doc)))))).
Proof.
  intros Hos He Ho.
  unfold extract_text_from_pdf, extract_text_from_pdf_body, fitz_open.
  rewrite Hos, He, Ho. cbn [negb bind].
  rewrite (@page_loop_acc os cuda mi (pages doc) Hos). cbn [bind app].
  destruct (@after_call_readable os cuda mi Hos) as [reclaimed ->]. reflexivity.
Qed.





(** X16.  A file that does not exist or does not open is never fatal for
    [validate_pdf] and [get_pdf_metadata], which answer [False] and the
    empty dictionary.  [extract_text_from_pdf] raises: the error of the
    monitor's first read of the memory when that read fails, and otherwise
    [FileNotFoundError] for a missing file and the error of PyMuPDF for one
    that does not open. *)
Theorem unreadable_file (os : psutil) (cuda : bool) (f : PdfFile) :
  file_exists f = false \/ opened f = None ->
  validate_pdf f = false
  /\ get_pdf_metadata f = []
  /\ extract_text_from_pdf os cuda f
     = (_ <- get_memory_usage os ;;
        Ok (inl (if file_exists f then FitzError else FileNotFoundError))).
Proof.
  unfold validate_pdf, get_pdf_metadata, extract_text_from_pdf,
    extract_text_from_pdf_body, fitz_open.
  intros [H|H]; rewrite H.
  - cbn [negb]. split; [reflexivity|]. split; reflexivity.
  - destruct (file_exists f); cbn [negb].
    + split; [now destruct (negb (str_eqb (lower (suffix f)) (lit ".pdf")))|].
      split; reflexivity.
    + split; [reflexivity|]. split; reflexivity.
Qed.

Lemma unreadable_file_witness :
  let missing := {| file_exists := false; suffix := lit ".pdf"; st_size := 0;
                    opened := None |} in
  let broken := {| file_exists := true; suffix := lit ".pdf"; st_size := 12;
                   opened := None |} in
  (validate_pdf missing = false
   /\ get_pdf_metadata missing = []
   /\ extract_text_from_pdf (healthy (50 # 1)) false missing
      = Ok (inl FileNotFoundError))
  /\ (validate_pdf broken = false
      /\ get_pdf_metadata broken = []
      /\ extract_text_from_pdf (healthy (50 # 1)) false broken
         = Ok (inl FitzError))
  /\ (validate_pdf missing = false
      /\ get_pdf_metadata missing = []
      /\ extract_text_from_pdf unreadable false missing = Raise PsutilError).
Proof.
  intros missing broken. split; [|split].
  - apply (@unreadable_file (healthy (50 # 1)) false missing). now left.
  - apply (@unreadable_file (healthy (50 # 1)) false broken). now right.
  - apply (@unreadable_file unreadable false missing). now left.
Defined.

(** X17.  A file can pass [validate_pdf] and give nothing: when the text of
    every page is blank (a scanned document), then on a machine whose
    memory can be read the extracted text is empty, and streaming it
    returns without a single record. *)
Theorem blank_pages_stream_nothing (f : PdfFile) (doc : Document) (os : psutil)
    (cuda : bool) (mi : MemoryInfo) (self : PDFProcessor.PDFProcessor)
    (md : Metadata) (fuel : nat) :
  file_exists f = true -> opened f = Some doc ->
  Forall (fun page_text => strip page_text = []) (pages doc) ->
  get_memory_usage os = Ok mi ->
  validate_pdf f
  = (str_eqb (lower (suffix f)) (lit ".pdf")
     && match pages doc with [] => false | _ :: _ => true end)
  /\ (exists cleanups,
        extract_text_from_pdf os cuda f = Ok (inr ([], cleanups)))
  /\ (exists tr,
        process_pdf_streaming (S fuel) os self md (Ok []) = Ok tr
        /\ records tr = []).
Proof.
  intros He Ho Hblank Hos. repeat split.
  - unfold validate_pdf, fitz_open. rewrite He, Ho. cbn [negb].
    now destruct (str_eqb (lower (suffix f)) (lit ".pdf")).
  - rewrite (@extract_text_from_pdf_opened os cuda mi f doc Hos He Ho).
    rewrite page_loop_blank by exact Hblank. cbn [map join]. now eexists.
  - exists []. split; [|reflexivity].
    unfold process_pdf_streaming, create_text_chunks, chunk_windows,
      get_optimal_chunk_size.
    cbn [bind]. rewrite Hos. cbn [bind].
    destruct (Qgtb (system_memory_percent mi) 80); [reflexivity|].
    destruct (Qgtb (system_memory_percent mi) 90); reflexivity.
Qed.

Lemma blank_pages_stream_nothing_witness :
  let doc := {| doc_metadata := []; pages := [lit "  "; []] |} in
  let f := {| file_exists := true; suffix := lit ".pdf"; st_size := 2048;
              opened := Some doc |} in
  validate_pdf f = true
  /\ validate_pdf f
     = (str_eqb (lower (suffix f)) (lit ".pdf")
        && match pages doc with [] => false | _ :: _ => true end)
  /\ (exists cleanups,
        extract_text_from_pdf (healthy (50 # 1)) false f
        = Ok (inr ([], cleanups)))
  /\ (exists tr,
        process_pdf_streaming 1 (healthy (50 # 1)) default [] (Ok []) = Ok tr
        /\ records tr = []).
Proof.
  intros doc f. split; [reflexivity|].
  apply (@blank_pages_stream_nothing f doc (healthy (50 # 1)) false
           {| process_memory_mb := inject_Z 104857600 / 1024 / 1024;
              system_memory_percent := 50 # 1;
              system_available_mb := inject_Z 2147483648 / 1024 / 1024;
              system_total_mb := inject_Z 4294967296 / 1024 / 1024 |}
           default [] 0);
    try reflexivity.
  repeat constructor.
Defined.

(** ** Command line *)

Lemma slice_prefix {A : Type} (l : list A) (n : Z) :
  0 <= n -> slice l 0 n = firstn (Z.to_nat n) l.
Proof.
  intros Hn. unfold slice, slice_index. cbn [Z.ltb Z.compare].
  assert (E : (n <? 0) = false) by (apply Z.ltb_ge; lia). rewrite E.
  rewrite (Z.min_l 0 (len l)) by (unfold len; lia).
  rewrite Z.sub_0_r. cbn [Z.to_nat skipn].
  destruct (Z_le_gt_dec n (len l)) as [H|H].
  - now rewrite Z.min_l by lia.
  - rewrite Z.min_r by lia. unfold len in *. rewrite Nat2Z.id.
    rewrite firstn_all. symmetry. apply firstn_all2. lia.
Qed.

Lemma Forall_firstn {A : Type} (P : A -> Prop) (l : list A) (n : nat) :
  Forall P l -> Forall P (firstn n l).
Proof.
  intros H. revert n. induction H as [|x l Hx Hl IH]; intros [|n]; cbn;
    constructor; auto.
Qed.

Lemma collect_questions_cap (question_generator : QuestionGenerator.QuestionGenerator)
    (num_questions : Z) :
  0 <= num_questions ->
  forall (chunk_texts : list str) (all_questions qs : list Question),
    len all_questions <= num_questions ->
    Forall (question_ok (model_name question_generator)) all_questions ->
    Main.collect_questions question_generator num_questions chunk_texts all_questions
    = Ok qs ->
    len qs <= num_questions
    /\ Forall (question_ok (model_name question_generator)) qs.
Proof.
  intros Hn. induction chunk_texts as [|chunk_text rest IH];
    intros all_questions qs Hlen Hok H; cbn [Main.collect_questions] in H.
  - injection H as <-. now split.
  - destruct (generate_questions_from_text question_generator chunk_text
                (Z.min 3 (Z.max 1 (num_questions / 5)))) as [chunk_questions| |] eqn:Eg;
      cbn [bind] in H; try discriminate H.
    apply generated_questions_valid in Eg.
    set (all' := match chunk_questions with
                 | [] => all_questions
                 | _ :: _ => all_questions ++ chunk_questions
                 end) in *.
    assert (Hok' : Forall (question_ok (model_name question_generator)) all').
    { unfold all'. destruct chunk_questions; [exact Hok|].
      apply Forall_app. now split. }
    destruct (num_questions <=? len all') eqn:E.
    + injection H as <-. rewrite slice_prefix by exact Hn. split.
      * unfold len. rewrite length_firstn. lia.
      * now apply Forall_firstn.
    + apply Z.leb_gt in E. apply IH in H; auto. lia.
Qed.

(** X18.  The loop of the command line caps what the generator hands back:
    for a count of at least 0 it ends with at most that many questions, each
    of them acceptable, whatever number each chunk produced. *)
Theorem command_line_keeps_the_requested_count
    (question_generator : QuestionGenerator.QuestionGenerator)
    (num_questions : Z) (chunk_texts : list str) (qs : list Question) :
  0 <= num_questions ->
  Main.collect_questions question_generator num_questions chunk_texts [] = Ok qs ->
  len qs <= num_questions
  /\ Forall (question_ok (model_name question_generator)) qs.
Proof.
  intros Hn H.
  apply (@collect_questions_cap question_generator num_questions Hn chunk_texts [] qs);
    [unfold len; simpl; lia | constructor | exact H].
Qed.

Lemma command_line_keeps_the_requested_count_witness :
  exists qs,
    Main.collect_questions (answering three_answers) 2
      [one_sentence; one_sentence] [] = Ok qs
    /\ List.length qs = 2%nat
    /\ len qs <= 2
    /\ Forall (question_ok spanish_model) qs.
Proof.
  eexists. split; [vm_compute; reflexivity|]. split; [reflexivity|].
  apply (@command_line_keeps_the_requested_count (answering three_answers) 2
           [one_sentence; one_sentence]); [lia | vm_compute; reflexivity].
Defined.

(** ** Taking the exam at the console *)

Lemma ask_answer (options inputs : list str) (a : str) (rest : list str) :
  ask options inputs = inr (a, rest) -> In a options.
Proof.
  induction inputs as [|line inputs IH]; cbn [ask]; [discriminate|].
  destruct (upper (strip line)) as [|c [|c' l]]; auto.
  destruct ((65 <=? c)%nat && (c <? 65 + List.length options)%nat) eqn:E; auto.
  intros H. injection H as <- _.
  apply andb_true_iff in E as [E1 E2].
  apply Nat.leb_le in E1. apply Nat.ltb_lt in E2.
  apply nth_In. lia.
Qed.

Lemma ask_only_eof (options inputs : list str) (e : io_error) :
  ask options inputs = inl e -> e = EOFError.
Proof.
  induction inputs as [|line inputs IH]; cbn [ask]; [congruence|].
  destruct (upper (strip line)) as [|c [|c' l]]; auto.
  destruct ((65 <=? c)%nat && (c <? 65 + List.length options)%nat); auto.
  discriminate.
Qed.

Lemma ask_no_option (inputs : list str) : ask [] inputs = inl EOFError.
Proof.
  induction inputs as [|line inputs IH]; cbn [ask]; [reflexivity|].
  destruct (upper (strip line)) as [|c [|c' l]]; auto.
  cbn [List.length]. rewrite Nat.add_0_r.
  destruct (65 <=? c)%nat eqn:E1; cbn [andb]; auto.
  apply Nat.leb_le in E1.
  assert (E2 : (c <? 65)%nat = false) by (apply Nat.ltb_ge; lia).
  now rewrite E2.
Qed.

(** X19.  When the console exam returns, there is one answer per item, each
    answer is one of the options shown for its item, and grading them gives
    one detail per item. *)
Theorem console_answers_are_options (exam : list ExamItem)
    (inputs user_answers : list str) :
  present_multiple_choice_exam exam inputs = inr user_answers ->
  Forall2 (fun q a => In a (options q)) exam user_answers
  /\ List.length user_answers = List.length exam
  /\ len (details (grade_multiple_choice_exam exam user_answers))
     = total (grade_multiple_choice_exam exam user_answers).
Proof.
  intros H.
  assert (HF : Forall2 (fun q a => In a (options q)) exam user_answers).
  { revert inputs user_answers H.
    induction exam as [|q rest IH]; intros inputs user_answers H;
      cbn [present_multiple_choice_exam] in H.
    - injection H as <-. constructor.
    - destruct (ask (options q) inputs) as [e|[a inputs']] eqn:Ea; [discriminate|].
      destruct (present_multiple_choice_exam rest inputs') as [e|answers] eqn:Ep;
        [discriminate|].
      injection H as <-. constructor; [now apply ask_answer in Ea | eauto]. }
  assert (Hlen : List.length user_answers = List.length exam)
    by (symmetry; eapply Forall2_length; eassumption).
  repeat split; auto.
  destruct (grade_fields exam user_answers) as (_ & Ht & Hd & _).
  rewrite Ht, Hd. unfold len. rewrite length_map, length_combine. lia.
Qed.

Lemma console_answers_are_options_witness :
  let exam := [ {| question := lit "q1"; options := [lit "uno"; lit "dos"];
                   answer := lit "dos" |} ] in
  Forall2 (fun q a => In a (options q)) exam [lit "dos"]
  /\ List.length [lit "dos"] = List.length exam
  /\ len (details (grade_multiple_choice_exam exam [lit "dos"]))
     = total (grade_multiple_choice_exam exam [lit "dos"]).
Proof.
  intros exam.
  apply (@console_answers_are_options exam [lit "x"; lit " b "; lit "A"]).
  reflexivity.
Defined.

Lemma present_only_eof (exam : list ExamItem) :
  forall (inputs : list str) (e : io_error),
    present_multiple_choice_exam exam inputs = inl e -> e = EOFError.
Proof.
  induction exam as [|q rest IH]; intros inputs e H;
    cbn [present_multiple_choice_exam] in H; [discriminate|].
  destruct (ask (options q) inputs) as [e'|[a inputs']] eqn:Ea.
  - injection H as <-. now apply ask_only_eof in Ea.
  - destruct (present_multiple_choice_exam rest inputs') as [e'|answers] eqn:Ep;
      [|discriminate].
    injection H as <-. eauto.
Qed.

(** X20.  An item without options cannot be answered: whatever lines are
    typed, the console exam returns no list of answers; it rejects every
    line that reaches the item and ends with the [EOFError] of [input()]
    when the lines run out. *)
Theorem item_without_options_is_never_answered (exam : list ExamItem)
    (inputs : list str) :
  (exists q, In q exam /\ options q = []) ->
  present_multiple_choice_exam exam inputs = inl EOFError.
Proof.
  intros (q & Hin & Hq). revert inputs.
  induction exam as [|q0 rest IH]; intros inputs; [destruct Hin|].
  cbn [present_multiple_choice_exam].
  destruct (ask (options q0) inputs) as [e|[a inputs']] eqn:Ea.
  - now apply ask_only_eof in Ea as ->.
  - destruct Hin as [->|Hin].
    + rewrite Hq, ask_no_option in Ea. discriminate Ea.
    + now rewrite IH.
Qed.

Lemma item_without_options_is_never_answered_witness :
  present_multiple_choice_exam
    [ {| question := lit "q1"; options := [lit "uno"; lit "dos"];
         answer := lit "dos" |};
      {| question := lit "q2"; options := []; answer := lit "dos" |} ]
    [lit "b"; lit "A"; lit "@"; lit "B"]
  = inl EOFError.
Proof.
  apply (@item_without_options_is_never_answered
           [ {| question := lit "q1"; options := [lit "uno"; lit "dos"];
                answer := lit "dos" |};
             {| question := lit "q2"; options := []; answer := lit "dos" |} ]
           [lit "b"; lit "A"; lit "@"; lit "B"]).
  eexists. split; [right; now left | reflexivity].
Defined.

Lemma upper_letter (i : nat) :
  (i < 26)%nat ->
  upper (strip [chr (65 + i)]) = [(65 + i)%nat]
  /\ upper (strip [chr (97 + i)]) = [(65 + i)%nat].
Proof.
  intros H.
  do 26 (destruct i as [|i]; [vm_compute; split; reflexivity|]).
  lia.
Qed.

(** X21.  Typing the letter of an option, capital or small, selects that
    option: for the first 26 options, the [i]-th letter of the alphabet
    gives the [i]-th option and the lines after it are left unread. *)
Theorem typed_letter_selects_option (options rest : list str) (i : nat) :
  (i < 26)%nat -> (i < List.length options)%nat ->
  ask options ([chr (65 + i)] :: rest) = inr (nth i options [], rest)
  /\ ask options ([chr (97 + i)] :: rest) = inr (nth i options [], rest).
Proof.
  intros Hi Hlen. destruct (upper_letter Hi) as [Hu Hl].
  assert (Hc : (65 <=? 65 + i)%nat && (65 + i <? 65 + List.length options)%nat = true).
  { apply andb_true_iff. split; [apply Nat.leb_le | apply Nat.ltb_lt]; lia. }
  assert (Hn : (65 + i - 65 = i)%nat) by lia.
  split; cbn [ask]; [rewrite Hu | rewrite Hl]; now rewrite Hc, Hn.
Qed.

Lemma typed_letter_selects_option_witness :
  ask [lit "uno"; lit "dos"; lit "tres"] ([chr (65 + 1)] :: [lit "C"])
  = inr (lit "dos", [lit "C"])
  /\ ask [lit "uno"; lit "dos"; lit "tres"] ([chr (97 + 1)] :: [lit "C"])
     = inr (lit "dos", [lit "C"]).
Proof.
  apply (@typed_letter_selects_option [lit "uno"; lit "dos"; lit "tres"] [lit "C"] 1);
    simpl; lia.
Defined.
